(** * The sharding node supervisor of [client/node/node.go]

    A shallow embedding of [ShardEthereum]: its construction
    ([NewShardInstance] and the [register*] methods), its lifecycle
    ([Start], [Close]) and the interrupt handler that [Start] installs.

    Go values are rendered as follows.
    - An [error] result is [option error]: [None] is [nil].
    - A [(value, error)] result is a sum: [inl value] or [inr err].
    - A method on [*ShardEthereum] is a function on [World], the receiver
      together with the chronological list of calls made to the
      collaborator packages, the logger and the runtime.
    - The packages that [node.go] imports are not part of this file; what
      they define is collected in the class [Packages]. *)

From Stdlib Require Import ZArith Lia.
From stdpp Require Import base option list gmap strings.

Local Open Scope string_scope.
Local Open Scope list_scope.
Local Open Scope Z_scope.

(** ** Values shared with the collaborator packages *)

(** The dynamic types under which services are registered
    ([reflect.Type] of the six service pointers built by [node.go]). *)
Inductive ServiceType : Type :=
| T_p2p_Server
| T_txpool_TXPool
| T_rpcclient_Service
| T_beacon_Service
| T_attester_Attester
| T_proposer_Proposer.

#[global] Instance ServiceType_eq_dec : EqDecision ServiceType.
Proof. solve_decision. Defined.

Definition ServiceType_to_nat (k : ServiceType) : nat :=
  match k with
  | T_p2p_Server => 0
  | T_txpool_TXPool => 1
  | T_rpcclient_Service => 2
  | T_beacon_Service => 3
  | T_attester_Attester => 4
  | T_proposer_Proposer => 5
  end%nat.

Definition ServiceType_of_nat (n : nat) : ServiceType :=
  match n with
  | 0 => T_p2p_Server
  | 1 => T_txpool_TXPool
  | 2 => T_rpcclient_Service
  | 3 => T_beacon_Service
  | 4 => T_attester_Attester
  | _ => T_proposer_Proposer
  end%nat.

#[global] Instance ServiceType_countable : Countable ServiceType.
Proof.
  refine (inj_countable' ServiceType_to_nat ServiceType_of_nat _).
  intros k. destruct k; reflexivity.
Defined.

(** Go's [error] values.  [Errorf fmt cause] is [fmt.Errorf(fmt, cause)]
    with a single [%v] verb; [DuplicateService] and [UnregisteredService]
    are the two errors of the registry; [ErrOpaque] stands for whatever a
    collaborator package reports. *)
Inductive error : Type :=
| ErrOpaque (msg : string)
| Errorf (format : string) (cause : error)
| DuplicateService (k : ServiceType)
| UnregisteredService (k : ServiceType).

(** [context.TODO()] *)
Inductive context : Type := context_TODO.

(** [database.DBConfig] as [startDB] fills it. *)
Record database_DBConfig : Type := {
  DataDir : string;
  Name : string;
  InMemory : bool
}.

(** [rpcclient.Config] as [registerRPCClientService] fills it. *)
Record rpcclient_Config : Type := { Endpoint : string }.

(** [*cli.Context], read only through [GlobalString]. *)
Record cli_Context : Type := { GlobalString : string -> string }.

(** Arguments handed to [log.Info]. *)
Inductive LogArg : Type :=
| LStr (s : string)
| LInt (z : Z).

(** [os.Signal] values the handler subscribes to. *)
Inductive Signal : Type := SIGINT | SIGTERM.

(** A [chan struct{}] on which nothing is ever sent: it is open or closed. *)
Inductive chan : Type := ChanOpen | ChanClosed.

(** [sync.RWMutex], used through [Lock]/[Unlock] only. *)
Inductive RWMutex : Type := Unlocked | Locked.

Definition shardChainDBName : string := "shardchaindata".

(** What [node.go] imports from the other packages of the repository:
    the opaque types, their constructors with the result shapes
    [node.go] destructures, and the flag names. *)
Class Packages : Type := {
  params_Config : Type;
  params_DefaultConfig : params_Config;
  database_DB : Type;
  database_NewDB : database_DBConfig -> database_DB + error;
  p2p_Server : Type;
  p2p_NewServer : p2p_Server + error;
  txpool_TXPool : Type;
  txpool_NewTXPool : p2p_Server -> txpool_TXPool + error;
  rpcclient_Service : Type;
  rpcclient_NewRPCClient : context -> rpcclient_Config -> rpcclient_Service;
  beacon_Config : Type;
  beacon_DefaultConfig : beacon_Config;
  beacon_Service : Type;
  beacon_NewBeaconClient :
    context -> beacon_Config -> rpcclient_Service -> beacon_Service;
  attester_Attester : Type;
  attester_NewAttester : context -> beacon_Service -> attester_Attester;
  proposer_Proposer : Type;
  proposer_NewProposer : context -> beacon_Service -> proposer_Proposer;
  cmd_DataDirFlag_Name : string;
  types_ActorFlag_Name : string;
  types_BeaconRPCProviderFlag_Name : string
}.

Section Node.

Context `{Pkg : Packages}.

(** A value of interface type [shared.Service]: one of the six concrete
    service pointers. *)
Inductive Service : Type :=
| Svc_p2p (s : p2p_Server)
| Svc_txpool (s : txpool_TXPool)
| Svc_rpcclient (s : rpcclient_Service)
| Svc_beacon (s : beacon_Service)
| Svc_attester (s : attester_Attester)
| Svc_proposer (s : proposer_Proposer).

(** [reflect.TypeOf(service)] *)
Definition TypeOf (service : Service) : ServiceType :=
  match service with
  | Svc_p2p _ => T_p2p_Server
  | Svc_txpool _ => T_txpool_TXPool
  | Svc_rpcclient _ => T_rpcclient_Service
  | Svc_beacon _ => T_beacon_Service
  | Svc_attester _ => T_attester_Attester
  | Svc_proposer _ => T_proposer_Proposer
  end.

(** The typed pointers that [FetchService] fills: the checked cast from
    the interface value back to the concrete service. *)
Definition as_p2p_Server (s : Service) : option p2p_Server :=
  match s with Svc_p2p x => Some x | _ => None end.

Definition as_rpcclient_Service (s : Service) : option rpcclient_Service :=
  match s with Svc_rpcclient x => Some x | _ => None end.

Definition as_beacon_Service (s : Service) : option beacon_Service :=
  match s with Svc_beacon x => Some x | _ => None end.

(** The methods of the [shared.Service] interface, as far as the registry
    observes them: the error, if any, that [Start] or [Stop] reports. *)
Class ServiceMethods : Type := {
  Service_Start : Service -> option error;
  Service_Stop : Service -> option error
}.

Context `{Methods : ServiceMethods}.

(** ** The service registry *)

(** Modelled from the spec: [shared.ServiceRegistry] is not among the
    sources.  The registry holds the ordered sequence of registered
    services and the mapping from capability type to the registered
    instance. *)
Record ServiceRegistry : Type := {
  ordered : list Service;
  byType : gmap ServiceType Service
}.

(** Modelled from the spec: [shared.NewServiceRegistry], absent from the
    sources; the registry is created empty. *)
Definition NewServiceRegistry : ServiceRegistry :=
  {| ordered := []; byType := ∅ |}.

(** Modelled from the spec: [ServiceRegistry.RegisterService], absent from
    the sources.  Inserts the service keyed by its concrete type and
    appends it to the ordered sequence; fails with DuplicateService if a
    service of that type is present, leaving the registry unchanged. *)
Definition Registry_Register (service : Service) (r : ServiceRegistry)
  : ServiceRegistry + error :=
  let kind := TypeOf service in
  match byType r !! kind with
  | Some _ => inr (DuplicateService kind)
  | None =>
      inl {| ordered := ordered r ++ [service];
             byType := <[kind := service]> (byType r) |}
  end.

(** Modelled from the spec: [ServiceRegistry.FetchService], absent from
    the sources.  Returns the registered instance of the requested type
    through a cast checked at lookup time; fails with UnregisteredService
    if absent (or on a mismatch); no effect on the registry. *)
Definition Registry_Fetch {A : Type} (kind : ServiceType)
  (cast : Service -> option A) (r : ServiceRegistry) : A + error :=
  match byType r !! kind ≫= cast with
  | Some running => inl running
  | None => inr (UnregisteredService kind)
  end.

(** ** The supervisor *)

Record ShardEthereum : Type := {
  shardConfig : option params_Config;
  services : ServiceRegistry;
  lock : RWMutex;
  stop : chan;
  db : option database_DB
}.

(** Calls that leave [node.go], in the order they are made.  A call is
    recorded when it is made, whatever its result. *)
Inductive Event : Type :=
| EvNewDB (config : database_DBConfig)
| EvNewServer
| EvNewTXPool (shardp2p : p2p_Server)
| EvNewRPCClient (config : rpcclient_Config)
| EvNewBeaconClient (config : beacon_Config) (rpcService : rpcclient_Service)
| EvNewAttester (beaconService : beacon_Service)
| EvNewProposer (beaconService : beacon_Service)
| EvRegisterService (service : Service)
| EvFetchService (kind : ServiceType) (running : option Service)
| EvLock
| EvUnlock
| EvServiceStart (service : Service)
| EvServiceStop (service : Service)
| EvLogInfo (args : list LogArg)
| EvLogError (err : error)
| EvDBClose (d : database_DB)
| EvCloseStop
| EvGoHandler
| EvGoClose
| EvNotify
| EvSignalStop
| EvDebugExit
| EvPanic (msg : string).

Record World : Type := {
  node : ShardEthereum;
  trace : list Event
}.

Definition emit (e : Event) (w : World) : World :=
  {| node := node w; trace := trace w ++ [e] |}.

Definition emits (es : list Event) (w : World) : World :=
  {| node := node w; trace := trace w ++ es |}.

Definition set_node (n : ShardEthereum) (w : World) : World :=
  {| node := n; trace := trace w |}.

Definition set_shardConfig (c : params_Config) (s : ShardEthereum) : ShardEthereum :=
  {| shardConfig := Some c; services := services s; lock := lock s;
     stop := stop s; db := db s |}.

Definition set_services (r : ServiceRegistry) (s : ShardEthereum) : ShardEthereum :=
  {| shardConfig := shardConfig s; services := r; lock := lock s;
     stop := stop s; db := db s |}.

Definition set_lock (m : RWMutex) (s : ShardEthereum) : ShardEthereum :=
  {| shardConfig := shardConfig s; services := services s; lock := m;
     stop := stop s; db := db s |}.

Definition set_stop (c : chan) (s : ShardEthereum) : ShardEthereum :=
  {| shardConfig := shardConfig s; services := services s; lock := lock s;
     stop := c; db := db s |}.

Definition set_db (d : database_DB) (s : ShardEthereum) : ShardEthereum :=
  {| shardConfig := shardConfig s; services := services s; lock := lock s;
     stop := stop s; db := Some d |}.

(** [s.services.RegisterService(service)] *)
Definition RegisterService (service : Service) (w : World) : option error * World :=
  let w := emit (EvRegisterService service) w in
  match Registry_Register service (services (node w)) with
  | inl r => (None, set_node (set_services r (node w)) w)
  | inr err => (Some err, w)
  end.

(** [s.services.FetchService(&x)] for a pointer [x] of the type that
    [kind] and [cast] describe; the call is recorded with the instance
    the registry holds for that type, if any. *)
Definition FetchService {A : Type} (kind : ServiceType)
  (cast : Service -> option A) (w : World) : (A + error) * World :=
  let registry := services (node w) in
  let w := emit (EvFetchService kind (byType registry !! kind)) w in
  (Registry_Fetch kind cast registry, w).

(** ** Construction *)

Definition startDB (ctx : cli_Context) (w : World) : option error * World :=
  let path := GlobalString ctx cmd_DataDirFlag_Name in
  let config := {| DataDir := path; Name := shardChainDBName; InMemory := false |} in
  let w := emit (EvNewDB config) w in
  match database_NewDB config with
  | inr err => (Some err, w)
  | inl d => (None, set_node (set_db d (node w)) w)
  end.

Definition registerP2P (w : World) : option error * World :=
  let w := emit EvNewServer w in
  match p2p_NewServer with
  | inr err => (Some (Errorf "could not register shardp2p service: %v" err), w)
  | inl shardp2p => RegisterService (Svc_p2p shardp2p) w
  end.

Definition registerTXPool (actor : string) (w : World) : option error * World :=
  if bool_decide (actor ≠ "proposer") then (None, w)
  else
    match FetchService T_p2p_Server as_p2p_Server w with
    | (inr err, w) => (Some err, w)
    | (inl shardp2p, w) =>
        let w := emit (EvNewTXPool shardp2p) w in
        match txpool_NewTXPool shardp2p with
        | inr err =>
            (Some (Errorf "could not register shard txpool service: %v" err), w)
        | inl pool => RegisterService (Svc_txpool pool) w
        end
    end.

Definition registerBeaconService (w : World) : option error * World :=
  match FetchService T_rpcclient_Service as_rpcclient_Service w with
  | (inr err, w) => (Some err, w)
  | (inl rpcService, w) =>
      let w := emit (EvNewBeaconClient beacon_DefaultConfig rpcService) w in
      let b := beacon_NewBeaconClient context_TODO beacon_DefaultConfig rpcService in
      RegisterService (Svc_beacon b) w
  end.

Definition registerActorService (actor : string) (w : World) : option error * World :=
  match FetchService T_beacon_Service as_beacon_Service w with
  | (inr err, w) => (Some err, w)
  | (inl beaconService, w) =>
      if bool_decide (actor = "attester") then
        let w := emit (EvNewAttester beaconService) w in
        let att := attester_NewAttester context_TODO beaconService in
        RegisterService (Svc_attester att) w
      else if bool_decide (actor = "proposer") then
        let w := emit (EvNewProposer beaconService) w in
        let prop := proposer_NewProposer context_TODO beaconService in
        RegisterService (Svc_proposer prop) w
      else (None, w)
  end.

Definition registerRPCClientService (ctx : cli_Context) (w : World) : option error * World :=
  let endpoint := GlobalString ctx types_BeaconRPCProviderFlag_Name in
  let config := {| Endpoint := endpoint |} in
  let w := emit (EvNewRPCClient config) w in
  let rpcService := rpcclient_NewRPCClient context_TODO config in
  RegisterService (Svc_rpcclient rpcService) w.

(** The supervisor as [NewShardInstance] allocates it, before any step. *)
Definition allocShardEthereum : World :=
  let registry := NewServiceRegistry in
  let shardEthereum :=
    {| shardConfig := None; services := registry; lock := Unlocked;
       stop := ChanOpen; db := None |} in
  {| node := set_shardConfig params_DefaultConfig shardEthereum; trace := [] |}.

(** [NewShardInstance]: the returned pair of a supervisor pointer and an error, and
    the world the call leaves behind. *)
Definition NewShardInstance (ctx : cli_Context)
  : (option ShardEthereum * option error) * World :=
  let w := allocShardEthereum in
  match startDB ctx w with
  | (Some err, w) => ((None, Some err), w)
  | (None, w) =>
  match registerP2P w with
  | (Some err, w) => ((None, Some err), w)
  | (None, w) =>
  let actorFlag := GlobalString ctx types_ActorFlag_Name in
  match registerTXPool actorFlag w with
  | (Some err, w) => ((None, Some err), w)
  | (None, w) =>
  match registerRPCClientService ctx w with
  | (Some err, w) => ((None, Some err), w)
  | (None, w) =>
  match registerBeaconService w with
  | (Some err, w) => ((None, Some err), w)
  | (None, w) =>
  match registerActorService actorFlag w with
  | (Some err, w) => ((None, Some err), w)
  | (None, w) => ((Some (node w), None), w)
  end end end end end end.

(** The six build steps of [NewShardInstance], in program order. *)
Inductive BuildStep : Type :=
| StepDB
| StepP2P
| StepTXPool
| StepRPCClient
| StepBeacon
| StepActor.

Definition buildSteps : list BuildStep :=
  [StepDB; StepP2P; StepTXPool; StepRPCClient; StepBeacon; StepActor].

(** The call that [NewShardInstance] makes for a step. *)
Definition runStep (ctx : cli_Context) (k : BuildStep) (w : World)
  : option error * World :=
  match k with
  | StepDB => startDB ctx w
  | StepP2P => registerP2P w
  | StepTXPool => registerTXPool (GlobalString ctx types_ActorFlag_Name) w
  | StepRPCClient => registerRPCClientService ctx w
  | StepBeacon => registerBeaconService w
  | StepActor => registerActorService (GlobalString ctx types_ActorFlag_Name) w
  end.

(** Steps run one after the other, stopping at the first error. *)
Fixpoint runSteps (ctx : cli_Context) (ks : list BuildStep) (w : World)
  : option error * World :=
  match ks with
  | [] => (None, w)
  | k :: ks =>
      match runStep ctx k w with
      | (Some err, w) => (Some err, w)
      | (None, w) => runSteps ctx ks w
      end
  end.


(** ** Lifecycle *)

(** Modelled from the spec: [ServiceRegistry.StartAll], absent from the
    sources.  Invokes [Start] on every registered service in registration
    order; a failure is logged and the remaining services are still
    started. *)
Definition Registry_StartAll (r : ServiceRegistry) : list Event :=
  flat_map
    (fun service =>
       EvServiceStart service ::
       match Service_Start service with
       | Some err => [EvLogError err]
       | None => []
       end)
    (ordered r).

(** Modelled from the spec: [ServiceRegistry.StopAll], absent from the
    sources.  Invokes [Stop] on every registered service, in reverse
    registration order; a failure is logged and the remaining services
    are still stopped. *)
Definition Registry_StopAll (r : ServiceRegistry) : list Event :=
  flat_map
    (fun service =>
       EvServiceStop service ::
       match Service_Stop service with
       | Some err => [EvLogError err]
       | None => []
       end)
    (rev (ordered r)).

(** How a call ends: it returns, it blocks for ever where it stands, or
    it panics. *)
Inductive Outcome : Type :=
| Returns (w : World)
| Blocks (w : World)
| Panics (msg : string) (w : World).

Definition andThen (o : Outcome) (k : World -> Outcome) : Outcome :=
  match o with
  | Returns w => k w
  | Blocks w => Blocks w
  | Panics msg w => Panics msg w
  end.

(** [defer f(); body]: [f] runs when the body returns and when it
    panics; a body that blocks never reaches it. *)
Definition deferring (body : Outcome) (deferred : World -> Outcome) : Outcome :=
  match body with
  | Returns w => deferred w
  | Blocks w => Blocks w
  | Panics msg w =>
      match deferred w with
      | Returns w' => Panics msg w'
      | o => o
      end
  end.

(** [s.lock.Lock()] *)
Definition mutex_Lock (w : World) : Outcome :=
  match lock (node w) with
  | Unlocked => Returns (emit EvLock (set_node (set_lock Locked (node w)) w))
  | Locked => Blocks w
  end.

(** [s.lock.Unlock()]; unlocking a mutex that is not locked is a fatal
    error of the runtime. *)
Definition mutex_Unlock (w : World) : Outcome :=
  match lock (node w) with
  | Locked => Returns (emit EvUnlock (set_node (set_lock Unlocked (node w)) w))
  | Unlocked => Panics "sync: Unlock of unlocked RWMutex" w
  end.

(** [log.Info(args...)] *)
Definition log_Info (args : list LogArg) (w : World) : World :=
  emit (EvLogInfo args) w.

(** [s.services.StartAll()] *)
Definition StartAll (w : World) : World :=
  emits (Registry_StartAll (services (node w))) w.

(** [s.services.StopAll()] *)
Definition StopAll (w : World) : World :=
  emits (Registry_StopAll (services (node w))) w.

(** [s.db.Close()], result discarded; on a nil handle the call
    dereferences a nil pointer. *)
Definition db_Close (w : World) : Outcome :=
  match db (node w) with
  | Some d => Returns (emit (EvDBClose d) w)
  | None => Panics "invalid memory address or nil pointer dereference" w
  end.

(** [close(s.stop)]: the statement is recorded as [EvCloseStop] whenever
    it is executed; on a closed channel the runtime panics. *)
Definition close_stop (w : World) : Outcome :=
  match stop (node w) with
  | ChanOpen =>
      Returns (emit EvCloseStop (set_node (set_stop ChanClosed (node w)) w))
  | ChanClosed => Panics "close of closed channel" (emit EvCloseStop w)
  end.

(** [Close], run without interference from other goroutines. *)
Definition Close (w : World) : Outcome :=
  andThen (mutex_Lock w) (fun w =>
  deferring
    (andThen (db_Close w) (fun w =>
     let w := StopAll w in
     let w := log_Info [LStr "Stopping sharding node"] w in
     close_stop w))
    mutex_Unlock).

(** *** The interrupt handler *)

(** Where the goroutine started by [Start] stands between two receives
    from [sigc]:
    - [Running]: blocked in the first receive (line 103);
    - [ShuttingDown i]: blocked in the receive of the loop (line 107),
      the loop variable being [i];
    - [ForcedTermination]: the loop has ended, [debug.Exit] and [panic]
      have run. *)
Inductive HandlerState : Type :=
| Running
| ShuttingDown (i : Z)
| ForcedTermination.

Definition warning (i : Z) : list Event :=
  if bool_decide (i > 1) then
    [EvLogInfo [LStr "Already shutting down, interrupt more to panic.";
                LStr "times"; LInt (i - 1)]]
  else [].

(** What follows the loop; the deferred [signal.Stop] runs as the panic
    unwinds. *)
Definition forced_exit : list Event :=
  [EvDebugExit; EvPanic "Panic closing the sharding node"; EvSignalStop].

(** [for i := 10; i > 0; i-- { <-sigc; if i > 1 { log.Info(...) } }]
    followed by [debug.Exit(); panic(...)], given the notifications that
    are still to be received. *)
Fixpoint handler_loop (i : Z) (sigc : list Signal) : list Event * HandlerState :=
  if bool_decide (i > 0) then
    match sigc with
    | [] => ([], ShuttingDown i)
    | _ :: sigc =>
        let '(es, st) := handler_loop (i - 1) sigc in
        (warning i ++ es, st)
    end
  else (forced_exit, ForcedTermination).

(** The body of the goroutine, from the first receive on, given the
    notifications it receives from [sigc] over its life. *)
Definition signalHandler (sigc : list Signal) : list Event * HandlerState :=
  match sigc with
  | [] => ([], Running)
  | _ :: sigc =>
      let '(es, st) := handler_loop 10 sigc in
      (EvLogInfo [LStr "Got interrupt, shutting down..."] :: EvGoClose :: es, st)
  end.

(** The test [i > 0] at the head of the loop. *)
Definition loop_head (i : Z) : list Event * HandlerState :=
  if bool_decide (i > 0) then ([], ShuttingDown i)
  else (forced_exit, ForcedTermination).

(** The same goroutine, one receive at a time: what it does from the
    moment a notification arrives until it blocks in the next receive. *)
Definition handler_recv (st : HandlerState) : list Event * HandlerState :=
  match st with
  | Running =>
      let '(es, st') := loop_head 10 in
      (EvLogInfo [LStr "Got interrupt, shutting down..."] :: EvGoClose :: es, st')
  | ShuttingDown i =>
      let '(es, st') := loop_head (i - 1) in
      (warning i ++ es, st')
  | ForcedTermination => ([], ForcedTermination)
  end.

(** *** Goroutines side by side *)

(** The statements of [Start].  [S_ReadStop] is [stop := s.stop]: the
    local variable is a second reference to the channel of the
    supervisor, which no statement of [node.go] reassigns, so the receive
    at [S_WaitStop] observes that very channel. *)
Inductive StartPC : Type :=
| S_Lock
| S_Log
| S_StartAll
| S_ReadStop
| S_Unlock
| S_Go
| S_WaitStop
| S_Returned
| S_Panicked (msg : string).

(** The statements of [Close]; [C_Unlock] is the deferred unlock and
    remembers a panic that is unwinding. *)
Inductive ClosePC : Type :=
| C_Lock
| C_DBClose
| C_StopAll
| C_Log
| C_CloseStop
| C_Unlock (panicking : option string)
| C_Returned
| C_Panicked (msg : string).

(** One statement of [Start], except the [go] statement, which
    [step] handles; [None] when the goroutine cannot move. *)
Definition Start_step (pc : StartPC) (w : World) : option (StartPC * World) :=
  match pc with
  | S_Lock =>
      match mutex_Lock w with
      | Returns w => Some (S_Log, w)
      | Blocks _ => None
      | Panics msg w => Some (S_Panicked msg, w)
      end
  | S_Log => Some (S_StartAll, log_Info [LStr "Starting sharding node"] w)
  | S_StartAll => Some (S_ReadStop, StartAll w)
  | S_ReadStop => Some (S_Unlock, w)
  | S_Unlock =>
      match mutex_Unlock w with
      | Returns w => Some (S_Go, w)
      | Blocks _ => None
      | Panics msg w => Some (S_Panicked msg, w)
      end
  | S_Go => Some (S_WaitStop, emit EvGoHandler w)
  | S_WaitStop =>
      match stop (node w) with
      | ChanClosed => Some (S_Returned, w)
      | ChanOpen => None
      end
  | S_Returned => None
  | S_Panicked _ => None
  end.

(** One statement of [Close]; [None] when the goroutine cannot move. *)
Definition Close_step (pc : ClosePC) (w : World) : option (ClosePC * World) :=
  match pc with
  | C_Lock =>
      match mutex_Lock w with
      | Returns w => Some (C_DBClose, w)
      | Blocks _ => None
      | Panics msg w => Some (C_Panicked msg, w)
      end
  | C_DBClose =>
      match db_Close w with
      | Returns w => Some (C_StopAll, w)
      | Blocks _ => None
      | Panics msg w => Some (C_Unlock (Some msg), w)
      end
  | C_StopAll => Some (C_Log, StopAll w)
  | C_Log => Some (C_CloseStop, log_Info [LStr "Stopping sharding node"] w)
  | C_CloseStop =>
      match close_stop w with
      | Returns w => Some (C_Unlock None, w)
      | Blocks _ => None
      | Panics msg w => Some (C_Unlock (Some msg), w)
      end
  | C_Unlock panicking =>
      match mutex_Unlock w with
      | Returns w =>
          Some (match panicking with
                | None => C_Returned
                | Some msg => C_Panicked msg
                end, w)
      | Blocks _ => None
      | Panics msg w => Some (C_Panicked msg, w)
      end
  | C_Returned => None
  | C_Panicked _ => None
  end.

(** The process: the supervisor, the goroutine that called [Start], the
    handler goroutine once started (with [notified] set once
    [signal.Notify] has run), the buffer of [sigc], every invocation of
    [Close], and the panic that ended the process, if any. *)
Record System : Type := {
  world : World;
  start_pc : StartPC;
  handler : option HandlerState;
  notified : bool;
  sigc_buf : list Signal;
  closers : list ClosePC;
  crashed : option string
}.

(** Who moves next. *)
Inductive Label : Type :=
| RunStart
| RunHandler
| RunClose (i : nat)
| Deliver (sig : Signal)
| CallClose.

Definition StartPC_panic (pc : StartPC) : option string :=
  match pc with S_Panicked msg => Some msg | _ => None end.

Definition ClosePC_panic (pc : ClosePC) : option string :=
  match pc with C_Panicked msg => Some msg | _ => None end.

Definition HandlerState_panic (st : HandlerState) : option string :=
  match st with
  | ForcedTermination => Some "Panic closing the sharding node"
  | _ => None
  end.

(** The goroutines spawned by the handler on a receive: [go s.Close()]
    on the first one. *)
Definition handler_spawns (st : HandlerState) : list ClosePC :=
  match st with Running => [C_Lock] | _ => [] end.

(** One move of the process.
    - [RunStart]: the next statement of [Start]; its [go] statement
      starts the handler goroutine.
    - [RunHandler]: the handler creates [sigc] and subscribes, or takes
      a buffered notification and runs up to its next receive.
    - [RunClose i]: the next statement of the [i]-th invocation of
      [Close].
    - [Deliver sig]: the operating system raises a signal.  [sigc] has
      capacity 1 and [signal.Notify] never blocks: a notification that
      finds the buffer full is dropped.  Without a subscription the
      signal ends the process.
    - [CallClose]: the embedding program invokes [Close] from a goroutine
      of its own.
    A panic in any goroutine ends the process: nothing moves after. *)
Definition step (l : Label) (s : System) : option System :=
  match crashed s with
  | Some _ => None
  | None =>
      match l with
      | RunStart =>
          match Start_step (start_pc s) (world s) with
          | None => None
          | Some (pc, w) =>
              Some {| world := w; start_pc := pc;
                      handler :=
                        match start_pc s with
                        | S_Go => Some Running
                        | _ => handler s
                        end;
                      notified := notified s; sigc_buf := sigc_buf s;
                      closers := closers s; crashed := StartPC_panic pc |}
          end
      | RunHandler =>
          match handler s with
          | None => None
          | Some st =>
              if notified s then
                match sigc_buf s with
                | [] => None
                | _ :: buf =>
                    let '(es, st') := handler_recv st in
                    Some {| world := emits es (world s);
                            start_pc := start_pc s;
                            handler := Some st'; notified := true;
                            sigc_buf := buf;
                            closers := closers s ++ handler_spawns st;
                            crashed := HandlerState_panic st' |}
                end
              else
                Some {| world := emit EvNotify (world s);
                        start_pc := start_pc s;
                        handler := Some st; notified := true;
                        sigc_buf := []; closers := closers s;
                        crashed := None |}
          end
      | RunClose i =>
          match closers s !! i with
          | None => None
          | Some pc =>
              match Close_step pc (world s) with
              | None => None
              | Some (pc', w) =>
                  Some {| world := w; start_pc := start_pc s;
                          handler := handler s; notified := notified s;
                          sigc_buf := sigc_buf s;
                          closers := <[i := pc']> (closers s);
                          crashed := ClosePC_panic pc' |}
              end
          end
      | Deliver sig =>
          if notified s then
            Some {| world := world s; start_pc := start_pc s;
                    handler := handler s; notified := true;
                    sigc_buf :=
                      match sigc_buf s with
                      | [] => [sig]
                      | buf => buf
                      end;
                    closers := closers s; crashed := None |}
          else
            Some {| world := world s; start_pc := start_pc s;
                    handler := handler s; notified := false;
                    sigc_buf := sigc_buf s; closers := closers s;
                    crashed := Some "signal" |}
      | CallClose =>
          Some {| world := world s; start_pc := start_pc s;
                  handler := handler s; notified := notified s;
                  sigc_buf := sigc_buf s;
                  closers := closers s ++ [C_Lock]; crashed := None |}
      end
  end.

(** A schedule, move by move; [None] if some move is not possible. *)
Fixpoint exec (ls : list Label) (s : System) : option System :=
  match ls with
  | [] => Some s
  | l :: ls =>
      match step l s with
      | Some s' => exec ls s'
      | None => None
      end
  end.

(** The process at the moment the embedding program calls [Start] on the
    supervisor [w]. *)
Definition boot (w : World) : System :=
  {| world := w; start_pc := S_Lock; handler := None; notified := false;
     sigc_buf := []; closers := []; crashed := None |}.

(** ** Vocabulary of the statements *)

(** The configuration [startDB] hands to [database.NewDB]. *)
Definition dbConfigOf (ctx : cli_Context) : database_DBConfig :=
  {| DataDir := GlobalString ctx cmd_DataDirFlag_Name;
     Name := shardChainDBName;
     InMemory := false |}.

(** The service [registerRPCClientService] builds. *)
Definition rpcServiceOf (ctx : cli_Context) : rpcclient_Service :=
  rpcclient_NewRPCClient context_TODO
    {| Endpoint := GlobalString ctx types_BeaconRPCProviderFlag_Name |}.

(** The service [registerBeaconService] builds from it. *)
Definition beaconOf (ctx : cli_Context) : beacon_Service :=
  beacon_NewBeaconClient context_TODO beacon_DefaultConfig (rpcServiceOf ctx).

Definition actorOf (ctx : cli_Context) : string :=
  GlobalString ctx types_ActorFlag_Name.

(** Following the spec, step 3 of the build phase: for a proposer, the
    transaction relay is built from the networking service obtained via
    Fetch and registered; for any other role nothing happens. *)
Definition spec_txpoolCalls (shardp2p : p2p_Server)
  (pool : option txpool_TXPool) : list Event :=
  match pool with
  | Some pool =>
      [EvFetchService T_p2p_Server (Some (Svc_p2p shardp2p));
       EvNewTXPool shardp2p;
       EvRegisterService (Svc_txpool pool)]
  | None => []
  end.

(** Following the spec, step 6 of the build phase: for an attester or a
    proposer, the actor is built from the beacon service obtained via
    Fetch and registered. *)
Definition spec_actorService (actor : string) (b : beacon_Service)
  : option Service :=
  if bool_decide (actor = "attester") then
    Some (Svc_attester (attester_NewAttester context_TODO b))
  else if bool_decide (actor = "proposer") then
    Some (Svc_proposer (proposer_NewProposer context_TODO b))
  else None.

Definition spec_actorCalls (actor : string) (b : beacon_Service) : list Event :=
  if bool_decide (actor = "attester") then
    [EvNewAttester b;
     EvRegisterService (Svc_attester (attester_NewAttester context_TODO b))]
  else if bool_decide (actor = "proposer") then
    [EvNewProposer b;
     EvRegisterService (Svc_proposer (proposer_NewProposer context_TODO b))]
  else [].

(** Following the spec, the six steps of the build phase in order. *)
Definition spec_buildCalls (ctx : cli_Context) (shardp2p : p2p_Server)
  (pool : option txpool_TXPool) : list Event :=
  [EvNewDB (dbConfigOf ctx)] ++
  [EvNewServer; EvRegisterService (Svc_p2p shardp2p)] ++
  spec_txpoolCalls shardp2p pool ++
  [EvNewRPCClient {| Endpoint := GlobalString ctx types_BeaconRPCProviderFlag_Name |};
   EvRegisterService (Svc_rpcclient (rpcServiceOf ctx))] ++
  [EvFetchService T_rpcclient_Service (Some (Svc_rpcclient (rpcServiceOf ctx)));
   EvNewBeaconClient beacon_DefaultConfig (rpcServiceOf ctx);
   EvRegisterService (Svc_beacon (beaconOf ctx))] ++
  [EvFetchService T_beacon_Service (Some (Svc_beacon (beaconOf ctx)))] ++
  spec_actorCalls (actorOf ctx) (beaconOf ctx).

(** Following the spec, the services in registration order. *)
Definition spec_registered (ctx : cli_Context) (shardp2p : p2p_Server)
  (pool : option txpool_TXPool) : list Service :=
  [Svc_p2p shardp2p] ++
  match pool with Some pool => [Svc_txpool pool] | None => [] end ++
  [Svc_rpcclient (rpcServiceOf ctx); Svc_beacon (beaconOf ctx)] ++
  match spec_actorService (actorOf ctx) (beaconOf ctx) with
  | Some actor => [actor]
  | None => []
  end.

(** Following the spec, the instance registered under each capability
    type once the build phase is over. *)
Definition spec_lookup (ctx : cli_Context) (shardp2p : p2p_Server)
  (pool : option txpool_TXPool) (k : ServiceType) : option Service :=
  match k with
  | T_p2p_Server => Some (Svc_p2p shardp2p)
  | T_txpool_TXPool => Svc_txpool <$> pool
  | T_rpcclient_Service => Some (Svc_rpcclient (rpcServiceOf ctx))
  | T_beacon_Service => Some (Svc_beacon (beaconOf ctx))
  | T_attester_Attester =>
      if bool_decide (actorOf ctx = "attester")
      then Some (Svc_attester (attester_NewAttester context_TODO (beaconOf ctx)))
      else None
  | T_proposer_Proposer =>
      if bool_decide (actorOf ctx = "proposer")
      then Some (Svc_proposer (proposer_NewProposer context_TODO (beaconOf ctx)))
      else None
  end.

(** The calls of one run of [Close] on a supervisor whose storage handle
    is [d]. *)
Definition closeCalls (w : World) (d : database_DB) : list Event :=
  [EvLock; EvDBClose d] ++
  Registry_StopAll (services (node w)) ++
  [EvLogInfo [LStr "Stopping sharding node"]; EvCloseStop; EvUnlock].

(** The world in which an outcome leaves the process. *)
Definition outcome_world (o : Outcome) : World :=
  match o with
  | Returns w => w
  | Blocks w => w
  | Panics _ w => w
  end.

(** [Close] statement by statement, for at most [fuel] statements. *)
Fixpoint Close_steps (fuel : nat) (pc : ClosePC) (w : World) : ClosePC * World :=
  match fuel with
  | O => (pc, w)
  | S fuel =>
      match Close_step pc w with
      | Some (pc', w') => Close_steps fuel pc' w'
      | None => (pc, w)
      end
  end.

(** Whether an event is the execution of [close(s.stop)]. *)
Definition is_CloseStop (e : Event) : bool :=
  match e with EvCloseStop => true | _ => false end.

(** How many times [close(s.stop)] was executed in a history. *)
Definition count_CloseStop (tr : list Event) : nat :=
  length (filter (λ e, is_CloseStop e = true) tr).

(** The stop signal of the process. *)
Definition stop_of (s : System) : chan := stop (node (world s)).

(** Whether [Start] stands between its [Lock] and its [Unlock]. *)
Definition Start_holds (pc : StartPC) : bool :=
  match pc with
  | S_Log | S_StartAll | S_ReadStop | S_Unlock => true
  | _ => false
  end.

(** Whether an invocation of [Close] stands between its [Lock] and its
    deferred [Unlock]. *)
Definition Close_holds (pc : ClosePC) : bool :=
  match pc with
  | C_DBClose | C_StopAll | C_Log | C_CloseStop | C_Unlock _ => true
  | _ => false
  end.

(** How many goroutines stand between a [Lock] and its [Unlock]. *)
Definition holders (s : System) : nat :=
  ((if Start_holds (start_pc s) then 1 else 0) +
   length (filter (λ pc, Close_holds pc = true) (closers s)))%nat.

(** The lock is taken exactly when one goroutine holds it, and then by
    one only. *)
Definition lock_accounted (s : System) : Prop :=
  holders s = match lock (node (world s)) with Locked => 1 | Unlocked => 0 end%nat.

(** [Start] has returned only if the stop signal is closed. *)
Definition returned_after_stop (s : System) : Prop :=
  start_pc s = S_Returned → stop_of s = ChanClosed.

(** ** Further vocabulary *)

(** [Start], run without interference from other goroutines: it ends
    blocked in the receive from [stop] unless the signal is closed
    already. *)
Definition Start (w : World) : Outcome :=
  andThen (mutex_Lock w) (fun w =>
  let w := log_Info [LStr "Starting sharding node"] w in
  let w := StartAll w in
  andThen (mutex_Unlock w) (fun w =>
  let w := emit EvGoHandler w in
  match stop (node w) with
  | ChanClosed => Returns w
  | ChanOpen => Blocks w
  end)).

(** [Start] statement by statement, for at most [fuel] statements. *)
Fixpoint Start_steps (fuel : nat) (pc : StartPC) (w : World) : StartPC * World :=
  match fuel with
  | O => (pc, w)
  | S fuel =>
      match Start_step pc w with
      | Some (pc', w') => Start_steps fuel pc' w'
      | None => (pc, w)
      end
  end.

(** The calls of [Start] up to its wait. *)
Definition startCalls (w : World) : list Event :=
  [EvLock; EvLogInfo [LStr "Starting sharding node"]] ++
  Registry_StartAll (services (node w)) ++
  [EvUnlock; EvGoHandler].

(** The calls that construction makes: to the constructors of the
    collaborator packages and to the registry. *)
Definition is_build_event (e : Event) : bool :=
  match e with
  | EvNewDB _ | EvNewServer | EvNewTXPool _ | EvNewRPCClient _
  | EvNewBeaconClient _ _ | EvNewAttester _ | EvNewProposer _
  | EvRegisterService _ | EvFetchService _ _ => true
  | _ => false
  end.

(** A registry whose two halves agree: no two services of the ordered
    sequence have the same type, and the map holds exactly the services
    of the sequence, each under its own type. *)
Definition registry_consistent (r : ServiceRegistry) : Prop :=
  NoDup (TypeOf <$> ordered r)
  ∧ ∀ k s, byType r !! k = Some s ↔ (s ∈ ordered r ∧ TypeOf s = k).

(** The values [i], [i-1], ... taken by a loop variable over [m]
    iterations. *)
Fixpoint countdown (i : Z) (m : nat) : list Z :=
  match m with
  | O => []
  | S m => i :: countdown (i - 1) m
  end.

Definition is_GoClose (e : Event) : bool :=
  match e with EvGoClose => true | _ => false end.

(** How many times [go s.Close()] was executed in a history. *)
Definition count_GoClose (tr : list Event) : nat :=
  length (filter (λ e, is_GoClose e = true) tr).

Definition is_Deliver (l : Label) : bool :=
  match l with Deliver _ => true | _ => false end.

(** How many signals the operating system raises in a schedule. *)
Definition deliveries (ls : list Label) : nat :=
  length (filter (λ l, is_Deliver l = true) ls).

Definition is_internal (l : Label) : bool :=
  match l with Deliver _ | CallClose => false | _ => true end.

(** A schedule in which no signal is raised and the embedding program
    does not call [Close]. *)
Definition undisturbed (ls : list Label) : Prop :=
  Forall (λ l, is_internal l = true) ls.

(** How many notifications the handler has received when it stands in a
    given state. *)
Definition received (st : HandlerState) : Z :=
  match st with
  | Running => 0
  | ShuttingDown i => 11 - i
  | ForcedTermination => 11
  end.

(** The states in which the handler can stand. *)
Definition HandlerState_ok (st : HandlerState) : Prop :=
  match st with
  | ShuttingDown i => 1 ≤ i ≤ 10
  | _ => True
  end.

(** Whether [Start] has not yet executed its [go] statement. *)
Definition Start_before_go (pc : StartPC) : bool :=
  match pc with
  | S_Lock | S_Log | S_StartAll | S_ReadStop | S_Unlock | S_Go => true
  | _ => false
  end.

(** Whether an invocation of [Close] has closed the stop signal itself
    and is returning or has returned. *)
Definition Close_fired (pc : ClosePC) : bool :=
  match pc with
  | C_Unlock None | C_Returned => true
  | _ => false
  end.

(** The moves of [Start] up to its wait. *)
Definition startSchedule : list Label := replicate 6 RunStart.

(** The moves of the [i]-th invocation of [Close], from its lock to its
    return. *)
Definition closeSchedule (i : nat) : list Label := replicate 6 (RunClose i).

(** [Start] reaches its wait, the embedding program calls [Close], that
    call runs to its end, and [Start] takes its next move. *)
Definition calledCloseSchedule : list Label :=
  startSchedule ++ [CallClose] ++ closeSchedule 0 ++ [RunStart].

(** [Start] reaches its wait, the handler subscribes, one signal is
    raised and received, the [Close] started by the handler runs to its
    end, and [Start] takes its next move. *)
Definition oneSignalSchedule (sig : Signal) : list Label :=
  startSchedule ++ [RunHandler; Deliver sig; RunHandler] ++
  closeSchedule 0 ++ [RunStart].

(** [Start] reaches its wait, the handler subscribes, and the signals
    are raised and received one after the other, while no invocation of
    [Close] gets to move. *)
Definition signalsSchedule (sigs : list Signal) : list Label :=
  startSchedule ++ [RunHandler] ++
  flat_map (λ sig, [Deliver sig; RunHandler]) sigs.

(** What the deliveries so far allow: the handler exists only once
    [Start] has passed its [go] statement; the buffer of [sigc] holds one
    notification at most, and none before the subscription; the
    notifications received and the one pending do not exceed the signals
    raised. *)
Definition signals_accounted (s : System) (raised : nat) : Prop :=
  (Start_before_go (start_pc s) = true → handler s = None)
  ∧ (handler s = None → notified s = false)
  ∧ (length (sigc_buf s) ≤ 1)%nat
  ∧ (notified s = false → sigc_buf s = [])
  ∧ match handler s with
    | None => True
    | Some st =>
        HandlerState_ok st
        ∧ received st + Z.of_nat (length (sigc_buf s)) ≤ Z.of_nat raised
    end.

(** The invocations of [Close] that have closed the stop signal
    themselves: none while it is open, one at most once it is closed. *)
Definition fired_accounted (s : System) : Prop :=
  (length (filter (λ pc, Close_fired pc = true) (closers s)) ≤
   match stop_of s with ChanOpen => 0 | ChanClosed => 1 end)%nat.

(** Nothing has been asked of the node: no invocation of [Close], no
    pending notification, the stop signal open, [Start] not returned. *)
Definition idle (s : System) : Prop :=
  closers s = [] ∧ sigc_buf s = [] ∧ stop_of s = ChanOpen
  ∧ start_pc s ≠ S_Returned.

End Node.

(** ** A concrete deployment

    Collaborator packages with small carriers, for running the
    definitions: storage cannot be opened at an empty data directory, the
    other constructors succeed, and the transaction pool reports an error
    when it is stopped. *)
Module Sample.

#[local] Instance packages : Packages := {|
  params_Config := unit;
  params_DefaultConfig := tt;
  database_DB := string;
  database_NewDB := fun config =>
    if bool_decide (DataDir config = "") then inr (ErrOpaque "cannot open storage")
    else inl (DataDir config);
  p2p_Server := nat;
  p2p_NewServer := inl 1%nat;
  txpool_TXPool := nat;
  txpool_NewTXPool := fun shardp2p => inl shardp2p;
  rpcclient_Service := string;
  rpcclient_NewRPCClient := fun _ config => Endpoint config;
  beacon_Config := unit;
  beacon_DefaultConfig := tt;
  beacon_Service := string;
  beacon_NewBeaconClient := fun _ _ rpcService => rpcService;
  attester_Attester := string;
  attester_NewAttester := fun _ beaconService => beaconService;
  proposer_Proposer := string;
  proposer_NewProposer := fun _ beaconService => beaconService;
  cmd_DataDirFlag_Name := "datadir";
  types_ActorFlag_Name := "actor";
  types_BeaconRPCProviderFlag_Name := "beacon-rpc-provider"
|}.

#[local] Instance methods : ServiceMethods := {|
  Service_Start := fun _ => None;
  Service_Stop := fun service =>
    match service with
    | Svc_txpool _ => Some (ErrOpaque "pool busy")
    | _ => None
    end
|}.

(** Command lines: a data directory, an actor role, and the endpoint. *)
Definition flags (datadir actor : string) : cli_Context :=
  {| GlobalString := fun name =>
       if bool_decide (name = "datadir") then datadir
       else if bool_decide (name = "actor") then actor
       else if bool_decide (name = "beacon-rpc-provider") then "localhost:4000"
       else "" |}.

Definition attesterCtx : cli_Context := flags "/var/shard" "attester".
Definition proposerCtx : cli_Context := flags "/var/shard" "proposer".
Definition noDirCtx : cli_Context := flags "" "attester".

(** The same packages on a host without a usable network address. *)
Definition offline : Packages := {|
  params_Config := unit;
  params_DefaultConfig := tt;
  database_DB := string;
  database_NewDB := fun config => inl (DataDir config);
  p2p_Server := nat;
  p2p_NewServer := inr (ErrOpaque "no usable address");
  txpool_TXPool := nat;
  txpool_NewTXPool := fun shardp2p => inl shardp2p;
  rpcclient_Service := string;
  rpcclient_NewRPCClient := fun _ config => Endpoint config;
  beacon_Config := unit;
  beacon_DefaultConfig := tt;
  beacon_Service := string;
  beacon_NewBeaconClient := fun _ _ rpcService => rpcService;
  attester_Attester := string;
  attester_NewAttester := fun _ beaconService => beaconService;
  proposer_Proposer := string;
  proposer_NewProposer := fun _ beaconService => beaconService;
  cmd_DataDirFlag_Name := "datadir";
  types_ActorFlag_Name := "actor";
  types_BeaconRPCProviderFlag_Name := "beacon-rpc-provider"
|}.

(** The supervisor built for an attester, as [NewShardInstance] leaves
    it. *)
Definition attesterWorld : World := snd (NewShardInstance attesterCtx).

(** The same supervisor with an empty history of calls. *)
Definition attesterNode : World :=
  {| node := node attesterWorld; trace := [] |}.

(** That supervisor after one run of [Close]. *)
Definition closedNode : World :=
  {| node := set_stop ChanClosed (node attesterWorld); trace := [] |}.

(** A schedule: [Start] runs up to its wait, the handler subscribes, an
    interrupt arrives and is received, the [Close] it starts runs to its
    end, and [Start] wakes up. *)
Definition interruptSchedule : list Label :=
  [RunStart; RunStart; RunStart; RunStart; RunStart; RunStart;
   RunHandler; Deliver SIGINT; RunHandler;
   RunClose 0; RunClose 0; RunClose 0; RunClose 0; RunClose 0; RunClose 0;
   RunStart].

End Sample.

(** * Properties *)

Section Construction.

Context `{Pkg : Packages} `{Methods : !ServiceMethods}.

Ltac unfold_build :=
  unfold NewShardInstance, startDB, registerP2P, registerTXPool,
    registerRPCClientService, registerBeaconService, registerActorService,
    RegisterService, FetchService, Registry_Register, Registry_Fetch,
    allocShardEthereum, NewServiceRegistry.

Ltac registry_lookup :=
  repeat first
    [ rewrite lookup_empty
    | rewrite lookup_insert_eq
    | rewrite lookup_insert_ne by discriminate
    | progress cbn ].

(** *** The registry *)

(** A registered service is handed back by a fetch of its type. *)
Lemma Registry_Register_Fetch {A} (cast : Service → option A) service x r r' :
  Registry_Register service r = inl r' →
  cast service = Some x →
  Registry_Fetch (TypeOf service) cast r' = inl x.
Proof.
  unfold Registry_Register, Registry_Fetch. intros Hreg Hcast.
  destruct (byType r !! TypeOf service); simplify_eq. cbn.
  by rewrite lookup_insert_eq; cbn; rewrite Hcast.
Qed.

(** A second service of a registered type is refused. *)
Lemma Registry_Register_twice service service' r r' :
  Registry_Register service r = inl r' →
  TypeOf service' = TypeOf service →
  Registry_Register service' r' = inr (DuplicateService (TypeOf service)).
Proof.
  unfold Registry_Register. intros Hreg Htype.
  destruct (byType r !! TypeOf service); simplify_eq. cbn.
  by rewrite Htype, lookup_insert_eq.
Qed.

(** Registration keeps the order of arrival. *)
Lemma Registry_Register_ordered service r r' :
  Registry_Register service r = inl r' →
  ordered r' = ordered r ++ [service].
Proof.
  unfold Registry_Register. intros Hreg.
  by destruct (byType r !! TypeOf service); simplify_eq.
Qed.

(** *** Construction *)


(** [NewShardInstance] is the six steps in sequence on the freshly
    allocated supervisor. *)
Lemma NewShardInstance_runSteps ctx :
  NewShardInstance ctx =
  match runSteps ctx buildSteps allocShardEthereum with
  | (Some err, w) => ((None, Some err), w)
  | (None, w) => ((Some (node w), None), w)
  end.
Proof.
  unfold NewShardInstance, buildSteps. simpl.
  destruct (startDB ctx allocShardEthereum) as [[?|] w1]; [done|].
  destruct (registerP2P w1) as [[?|] w2]; [done|].
  destruct (registerTXPool _ w2) as [[?|] w3]; [done|].
  destruct (registerRPCClientService ctx w3) as [[?|] w4]; [done|].
  destruct (registerBeaconService w4) as [[?|] w5]; [done|].
  destruct (registerActorService _ w5) as [[?|] w6]; done.
Qed.

(** Either a supervisor or an error comes back, never both and never
    neither; the supervisor is the one the world holds. *)
Lemma NewShardInstance_result ctx :
  (∃ n, NewShardInstance ctx = ((Some n, None), snd (NewShardInstance ctx))
        ∧ n = node (snd (NewShardInstance ctx)))
  ∨ (∃ err, NewShardInstance ctx = ((None, Some err), snd (NewShardInstance ctx))).
Proof.
  rewrite NewShardInstance_runSteps.
  destruct (runSteps ctx buildSteps allocShardEthereum) as [[err|] w]; simpl; eauto.
Qed.

(** What a successful construction has done, call by call. *)
Lemma NewShardInstance_success ctx n w :
  NewShardInstance ctx = ((Some n, None), w) →
  ∃ d shardp2p pool,
    database_NewDB (dbConfigOf ctx) = inl d
    ∧ p2p_NewServer = inl shardp2p
    ∧ (if bool_decide (actorOf ctx = "proposer")
       then ∃ p, txpool_NewTXPool shardp2p = inl p ∧ pool = Some p
       else pool = None)
    ∧ n = node w
    ∧ trace w = spec_buildCalls ctx shardp2p pool
    ∧ ordered (services n) = spec_registered ctx shardp2p pool
    ∧ (∀ k, byType (services n) !! k = spec_lookup ctx shardp2p pool k)
    ∧ db n = Some d ∧ stop n = ChanOpen ∧ lock n = Unlocked.
Proof.
  unfold_build. unfold spec_buildCalls, spec_registered, spec_actorCalls,
    spec_actorService, spec_txpoolCalls, spec_lookup, actorOf, beaconOf,
    rpcServiceOf.
  cbn.
  fold (dbConfigOf ctx).
  destruct (database_NewDB _) as [d|e] eqn:Hdb; [|done].
  destruct p2p_NewServer as [shardp2p|e] eqn:Hsrv; [|done].
  registry_lookup.
  repeat case_bool_decide; try congruence; registry_lookup;
    try destruct (txpool_NewTXPool shardp2p) as [p|e] eqn:Hpool;
    registry_lookup; intros ?; simplify_eq;
    eexists d, shardp2p, _; (split; [done|]); (split; [done|]);
    (split; [first [by eexists | done]|]);
    repeat split; try done;
    intros []; registry_lookup; done.
Qed.


(** C9.  If storage cannot be opened at the data directory,
    [NewShardInstance] returns that error and a nil supervisor; the only
    call made was the one to [database.NewDB], and the registry is still
    the empty one. *)
Theorem NewShardInstance_storage_failure ctx err :
  database_NewDB (dbConfigOf ctx) = inr err →
  fst (NewShardInstance ctx) = (None, Some err)
  ∧ trace (snd (NewShardInstance ctx)) = [EvNewDB (dbConfigOf ctx)]
  ∧ services (node (snd (NewShardInstance ctx))) = NewServiceRegistry
  ∧ ordered (services (node (snd (NewShardInstance ctx)))) = [].
Proof.
  intros Hdb. unfold NewShardInstance, startDB.
  fold (dbConfigOf ctx). rewrite Hdb. done.
Qed.

(** C4.  A successful construction has made its calls in the order of the
    build phase: storage is opened, the networking service registered,
    for a proposer the transaction relay built from the fetched
    networking service and registered, the RPC client registered, the
    beacon service built from the fetched RPC client and registered, and
    for an attester or a proposer the actor built from the fetched beacon
    service and registered; the registry lists the services in that
    order. *)
Theorem NewShardInstance_build_order ctx n w :
  NewShardInstance ctx = ((Some n, None), w) →
  ∃ d shardp2p pool,
    database_NewDB (dbConfigOf ctx) = inl d
    ∧ p2p_NewServer = inl shardp2p
    ∧ (if bool_decide (actorOf ctx = "proposer")
       then ∃ p, txpool_NewTXPool shardp2p = inl p ∧ pool = Some p
       else pool = None)
    ∧ trace w = spec_buildCalls ctx shardp2p pool
    ∧ ordered (services n) = spec_registered ctx shardp2p pool
    ∧ db n = Some d.
Proof.
  intros H. apply NewShardInstance_success in H.
  destruct H as (d & shardp2p & pool & ? & ? & ? & ? & ? & ? & ? & ? & ?).
  eexists d, shardp2p, pool. eauto 10.
Qed.


(** C10.  Whatever the role string, the first call of
    [registerActorService] is the fetch of the beacon service; when the
    registry holds no beacon service the method returns the lookup error
    at once, having done nothing else, also for roles that register no
    actor. *)
Theorem registerActorService_fetches_first actor w :
  (∃ rest, trace (snd (registerActorService actor w)) =
           trace w ++
           EvFetchService T_beacon_Service
             (byType (services (node w)) !! T_beacon_Service) :: rest)
  ∧ (byType (services (node w)) !! T_beacon_Service = None →
     registerActorService actor w =
       (Some (UnregisteredService T_beacon_Service),
        emit (EvFetchService T_beacon_Service None) w)).
Proof.
  split.
  - unfold registerActorService, FetchService, RegisterService. cbn.
    destruct (Registry_Fetch _ _ _) as [b|e]; [|by eexists].
    repeat case_bool_decide; cbn;
      try destruct (Registry_Register _ _); cbn;
      rewrite <- ?app_assoc; by eexists.
  - intros Hnone. unfold registerActorService, FetchService, Registry_Fetch.
    cbn. by rewrite Hnone.
Qed.


(** *** Further properties of construction *)

(** Whatever a build step does to the registry, it does through one
    successful registration at most. *)
Lemma runStep_registry ctx k w :
  services (node (runStep ctx k w).2) = services (node w)
  ∨ ∃ service,
      Registry_Register service (services (node w)) =
        inl (services (node (runStep ctx k w).2)).
Proof.
  destruct k; cbn [runStep];
    unfold startDB, registerP2P, registerTXPool, registerRPCClientService,
      registerBeaconService, registerActorService, RegisterService,
      FetchService; cbn;
    repeat case_match; simplify_eq; cbn; eauto.
Qed.

Lemma Registry_Register_consistent service r r' :
  registry_consistent r →
  Registry_Register service r = inl r' →
  registry_consistent r'.
Proof.
  unfold registry_consistent, Registry_Register.
  intros [Hnodup Hmap] Hreg.
  destruct (byType r !! TypeOf service) eqn:Hfresh; simplify_eq. cbn.
  split.
  - rewrite fmap_app. cbn. apply NoDup_app. split; [done|]. split.
    + intros k Hk Hk'. apply list_elem_of_singleton in Hk'. subst k.
      apply list_elem_of_fmap in Hk as (s & Hty & Hs).
      assert (byType r !! TypeOf service = Some s) as Hsome
        by (apply Hmap; done).
      congruence.
    + apply NoDup_singleton.
  - intros k s. rewrite lookup_insert, elem_of_app, list_elem_of_singleton.
    case_decide as Hk.
    + subst k. split.
      * intros ?. simplify_eq. auto.
      * intros [[Hin| ->] Hty]; [|done].
        assert (byType r !! TypeOf service = Some s) as Hsome
          by (apply Hmap; done).
        congruence.
    + rewrite Hmap. split.
      * intros [? ?]. auto.
      * intros [[Hin| ->] Hty]; [done|congruence].
Qed.

Lemma runSteps_snd_cons ctx k ks w :
  (runSteps ctx (k :: ks) w).2 =
  match (runStep ctx k w).1 with
  | Some _ => (runStep ctx k w).2
  | None => (runSteps ctx ks (runStep ctx k w).2).2
  end.
Proof. cbn. by destruct (runStep ctx k w) as [[?|] ?]. Qed.

(** X5.  Every build step, and so every run of build steps, keeps the
    registry consistent: no two registered services share a type, and
    the map holds exactly the services of the ordered sequence. *)
Theorem runSteps_registry_consistent ctx ks w :
  registry_consistent (services (node w)) →
  registry_consistent (services (node (runSteps ctx ks w).2)).
Proof.
  revert w. induction ks as [|k ks IH]; intros w Hw; [done|].
  rewrite runSteps_snd_cons.
  assert (registry_consistent (services (node (runStep ctx k w).2))) as Hk.
  { destruct (runStep_registry ctx k w) as [->|(service & Hreg)]; [done|].
    by eapply Registry_Register_consistent. }
  destruct (runStep ctx k w).1; [done|]. by apply IH.
Qed.

(** X4.  What a build step leaves alone.  No step touches the lock, the
    stop signal or the configuration; only [startDB] writes the storage
    handle, and it leaves the registry alone; a step that returns an
    error has not modified the supervisor at all; the history of calls
    only grows, by construction calls; and the ordered sequence of the
    registry only grows, by one service at most. *)
Theorem runStep_frame ctx k w :
  lock (node (runStep ctx k w).2) = lock (node w)
  ∧ stop (node (runStep ctx k w).2) = stop (node w)
  ∧ shardConfig (node (runStep ctx k w).2) = shardConfig (node w)
  ∧ (k ≠ StepDB → db (node (runStep ctx k w).2) = db (node w))
  ∧ (k = StepDB → services (node (runStep ctx k w).2) = services (node w))
  ∧ (is_Some (runStep ctx k w).1 → node (runStep ctx k w).2 = node w)
  ∧ (∃ es, trace (runStep ctx k w).2 = trace w ++ es
           ∧ forallb is_build_event es = true)
  ∧ (∃ new, ordered (services (node (runStep ctx k w).2)) =
              ordered (services (node w)) ++ new
            ∧ (length new ≤ 1)%nat).
Proof.
  assert (Hord : ∃ new, ordered (services (node (runStep ctx k w).2)) =
                          ordered (services (node w)) ++ new
                        ∧ (length new ≤ 1)%nat).
  { destruct (runStep_registry ctx k w) as [->|(service & Hreg)].
    - exists []. split; [by rewrite app_nil_r | cbn; lia].
    - exists [service]. split; [|cbn; lia].
      by apply Registry_Register_ordered in Hreg. }
  destruct w as [[cfg reg lk st dbh] tr].
  repeat split; try exact Hord; clear Hord;
    destruct k; cbn [runStep];
    unfold startDB, registerP2P, registerTXPool, registerRPCClientService,
      registerBeaconService, registerActorService, RegisterService,
      FetchService; cbn;
    repeat case_match; simplify_eq; cbn; try done;
    try (by intros [? ?]);
    rewrite <- ?app_assoc; try (eexists; split; [reflexivity|done]).
  exists []. by rewrite app_nil_r.
Qed.

(** X1.  Construction succeeds exactly when storage can be opened, the
    networking service can be built and, for a proposer, the transaction
    pool can be built: the registry never refuses a registration or a
    lookup in [NewShardInstance]. *)
Theorem NewShardInstance_succeeds_iff ctx :
  (∃ n w, NewShardInstance ctx = ((Some n, None), w)) ↔
  (∃ d shardp2p,
     database_NewDB (dbConfigOf ctx) = inl d
     ∧ p2p_NewServer = inl shardp2p
     ∧ (actorOf ctx = "proposer" → ∃ p, txpool_NewTXPool shardp2p = inl p)).
Proof.
  split.
  - intros (n & w & H). apply NewShardInstance_success in H.
    destruct H as (d & shardp2p & pool & Hdb & Hsrv & Hpool & _).
    exists d, shardp2p. split; [done|]. split; [done|]. intros Hp.
    rewrite bool_decide_eq_true_2 in Hpool by done.
    destruct Hpool as (p & ? & _). eauto.
  - intros (d & shardp2p & Hdb & Hsrv & Hpool).
    unfold_build. fold (dbConfigOf ctx) (actorOf ctx). cbn.
    rewrite Hdb, Hsrv. registry_lookup.
    case_bool_decide as Hne; registry_lookup.
    + repeat case_bool_decide; try congruence; registry_lookup; eauto.
    + destruct (Hpool Hne) as (p & Hp).
      rewrite Hp. registry_lookup.
      repeat case_bool_decide; try congruence; registry_lookup; eauto.
Qed.

(** X2.  The three ways in which construction fails, with the error that
    comes back in each: the error of [database.NewDB] as it is; the error
    of [p2p.NewServer] wrapped, with nothing registered; for a proposer,
    the error of [txpool.NewTXPool] wrapped, with the networking service
    registered alone. *)
Theorem NewShardInstance_failure_cases ctx err w :
  NewShardInstance ctx = ((None, Some err), w) →
  (database_NewDB (dbConfigOf ctx) = inr err
   ∧ ordered (services (node w)) = [] ∧ db (node w) = None)
  ∨ (∃ d e,
       database_NewDB (dbConfigOf ctx) = inl d
       ∧ p2p_NewServer = inr e
       ∧ err = Errorf "could not register shardp2p service: %v" e
       ∧ ordered (services (node w)) = [] ∧ db (node w) = Some d)
  ∨ (∃ d shardp2p e,
       database_NewDB (dbConfigOf ctx) = inl d
       ∧ p2p_NewServer = inl shardp2p
       ∧ actorOf ctx = "proposer"
       ∧ txpool_NewTXPool shardp2p = inr e
       ∧ err = Errorf "could not register shard txpool service: %v" e
       ∧ ordered (services (node w)) = [Svc_p2p shardp2p]
       ∧ db (node w) = Some d).
Proof.
  unfold_build. fold (dbConfigOf ctx) (actorOf ctx). cbn.
  destruct (database_NewDB _) as [d|e] eqn:Hdb.
  2: { intros ?. simplify_eq. by left. }
  destruct p2p_NewServer as [shardp2p|e] eqn:Hsrv.
  2: { registry_lookup. intros ?. simplify_eq. right. left. by eexists _, _. }
  registry_lookup.
  case_bool_decide as Hne; registry_lookup.
  - repeat case_bool_decide; try congruence; registry_lookup; done.
  - destruct (txpool_NewTXPool shardp2p) as [p|e] eqn:Hpool; registry_lookup.
    + repeat case_bool_decide; try congruence; registry_lookup; done.
    + intros ?. simplify_eq. right. right. by eexists _, _, _.
Qed.

(** X3.  Construction never closes the storage handle it has opened, not
    even when a later step fails and the supervisor is dropped: once
    [database.NewDB] has succeeded the handle stays attached, and the
    history holds construction calls only (no close, no start, no lock). *)
Theorem NewShardInstance_leaves_storage_open ctx d :
  database_NewDB (dbConfigOf ctx) = inl d →
  db (node (NewShardInstance ctx).2) = Some d
  ∧ forallb is_build_event (trace (NewShardInstance ctx).2) = true.
Proof.
  intros Hdb. unfold_build. fold (dbConfigOf ctx) (actorOf ctx). cbn.
  rewrite Hdb.
  destruct p2p_NewServer as [shardp2p|e]; [|done].
  registry_lookup.
  repeat case_bool_decide; try congruence; registry_lookup;
    try destruct (txpool_NewTXPool shardp2p) as [p|e]; registry_lookup; done.
Qed.

(** X6.  [registerTXPool] for a proposer, on any supervisor.  Without a
    registered networking service it returns the lookup error at once and
    builds nothing.  With one, it builds the pool from that very service:
    if the constructor fails, its error comes back wrapped and the
    supervisor is unchanged; if a pool is registered already, the
    registry refuses the new one; otherwise the pool is registered after
    the services already there. *)
Theorem registerTXPool_proposer_cases w :
  (byType (services (node w)) !! T_p2p_Server = None →
     registerTXPool "proposer" w =
       (Some (UnregisteredService T_p2p_Server),
        emit (EvFetchService T_p2p_Server None) w))
  ∧ (∀ shardp2p e,
       byType (services (node w)) !! T_p2p_Server = Some (Svc_p2p shardp2p) →
       txpool_NewTXPool shardp2p = inr e →
       (registerTXPool "proposer" w).1 =
         Some (Errorf "could not register shard txpool service: %v" e)
       ∧ node (registerTXPool "proposer" w).2 = node w)
  ∧ (∀ shardp2p pool,
       byType (services (node w)) !! T_p2p_Server = Some (Svc_p2p shardp2p) →
       txpool_NewTXPool shardp2p = inl pool →
       match byType (services (node w)) !! T_txpool_TXPool with
       | Some _ =>
           (registerTXPool "proposer" w).1 =
             Some (DuplicateService T_txpool_TXPool)
           ∧ node (registerTXPool "proposer" w).2 = node w
       | None =>
           (registerTXPool "proposer" w).1 = None
           ∧ ordered (services (node (registerTXPool "proposer" w).2)) =
               ordered (services (node w)) ++ [Svc_txpool pool]
           ∧ byType (services (node (registerTXPool "proposer" w).2))
               !! T_txpool_TXPool = Some (Svc_txpool pool)
       end).
Proof.
  unfold registerTXPool, FetchService, Registry_Fetch, RegisterService,
    Registry_Register.
  rewrite (bool_decide_eq_false_2 ("proposer" ≠ "proposer"))
    by (intros Hne; by apply Hne).
  cbn. split; [|split].
  - intros Hnone. by rewrite Hnone.
  - intros shardp2p e Hp2p Hpool. rewrite Hp2p. cbn. by rewrite Hpool.
  - intros shardp2p pool Hp2p Hpool. rewrite Hp2p. cbn. rewrite Hpool. cbn.
    destruct (byType (services (node w)) !! T_txpool_TXPool); cbn; [done|].
    by rewrite lookup_insert_eq.
Qed.

(** X7.  [registerBeaconService], on any supervisor.  Without a
    registered RPC client it returns the lookup error at once and builds
    nothing.  With one, it builds the beacon client from that very
    client: if a beacon service is registered already, the registry
    refuses the new one and the supervisor is unchanged; otherwise the
    beacon service is registered after the services already there. *)
Theorem registerBeaconService_cases w :
  (byType (services (node w)) !! T_rpcclient_Service = None →
     registerBeaconService w =
       (Some (UnregisteredService T_rpcclient_Service),
        emit (EvFetchService T_rpcclient_Service None) w))
  ∧ (∀ rpcService,
       byType (services (node w)) !! T_rpcclient_Service =
         Some (Svc_rpcclient rpcService) →
       let b := beacon_NewBeaconClient context_TODO beacon_DefaultConfig
                  rpcService in
       match byType (services (node w)) !! T_beacon_Service with
       | Some _ =>
           (registerBeaconService w).1 =
             Some (DuplicateService T_beacon_Service)
           ∧ node (registerBeaconService w).2 = node w
       | None =>
           (registerBeaconService w).1 = None
           ∧ ordered (services (node (registerBeaconService w).2)) =
               ordered (services (node w)) ++ [Svc_beacon b]
           ∧ byType (services (node (registerBeaconService w).2))
               !! T_beacon_Service = Some (Svc_beacon b)
       end).
Proof.
  unfold registerBeaconService, FetchService, Registry_Fetch, RegisterService,
    Registry_Register. cbn.
  split.
  - intros Hnone. by rewrite Hnone.
  - intros rpcService Hrpc. rewrite Hrpc. cbn.
    destruct (byType (services (node w)) !! T_beacon_Service); cbn; [done|].
    by rewrite lookup_insert_eq.
Qed.

(** X8.  [registerRPCClientService] cannot be run twice: after a first
    successful run, a second one (with whatever endpoint) builds a new
    client, is refused by the registry with DuplicateService, and leaves
    the supervisor with the first client. *)
Theorem registerRPCClientService_twice ctx ctx' w w1 :
  registerRPCClientService ctx w = (None, w1) →
  (registerRPCClientService ctx' w1).1 =
    Some (DuplicateService T_rpcclient_Service)
  ∧ node (registerRPCClientService ctx' w1).2 = node w1
  ∧ byType (services (node w1)) !! T_rpcclient_Service =
      Some (Svc_rpcclient (rpcServiceOf ctx))
  ∧ trace (registerRPCClientService ctx' w1).2 =
      trace w1 ++
      [EvNewRPCClient
         {| Endpoint := GlobalString ctx' types_BeaconRPCProviderFlag_Name |};
       EvRegisterService (Svc_rpcclient (rpcServiceOf ctx'))].
Proof.
  unfold registerRPCClientService, RegisterService, Registry_Register,
    rpcServiceOf. cbn.
  destruct (byType (services (node w)) !! T_rpcclient_Service) eqn:Hw;
    [done|].
  intros ?. simplify_eq. cbn. rewrite lookup_insert_eq. cbn.
  by rewrite <- app_assoc.
Qed.

(** X9.  A build step never removes or replaces a registered service:
    what the registry holds under a type before the step, it holds
    after. *)
Theorem runStep_keeps_services ctx k w kind service :
  byType (services (node w)) !! kind = Some service →
  byType (services (node (runStep ctx k w).2)) !! kind = Some service.
Proof.
  intros Hsome.
  destruct (runStep_registry ctx k w) as [->|(new & Hreg)]; [done|].
  unfold Registry_Register in Hreg.
  destruct (byType (services (node w)) !! TypeOf new) eqn:Hnew; [done|].
  injection Hreg as Hreg. rewrite <- Hreg. cbn.
  rewrite lookup_insert_ne; [done|]. intros <-. congruence.
Qed.


End Construction.

Section Lifecycle.

Context `{Pkg : Packages} `{Methods : !ServiceMethods}.

(** What a run of [Close] that acquires the lock does, by the state of
    the stop signal it finds. *)
Lemma Close_run w d :
  lock (node w) = Unlocked →
  db (node w) = Some d →
  Close w =
    match stop (node w) with
    | ChanOpen =>
        Returns {| node := set_stop ChanClosed (node w);
                   trace := trace w ++ closeCalls w d |}
    | ChanClosed =>
        Panics "close of closed channel"
          {| node := node w; trace := trace w ++ closeCalls w d |}
    end.
Proof.
  destruct w as [[cfg reg lk st dbh] tr]. cbn. intros -> ->.
  unfold Close, mutex_Lock, db_Close, StopAll, log_Info, close_stop,
    mutex_Unlock, closeCalls, emits, emit, set_node, set_lock, set_stop.
  destruct st; cbn; rewrite <- ?app_assoc; cbn; reflexivity.
Qed.

(** With the lock taken and nobody to release it, [Close] waits. *)
Lemma Close_blocks w :
  lock (node w) = Locked → Close w = Blocks w.
Proof. intros H. unfold Close, mutex_Lock. by rewrite H. Qed.

(** The goroutine that runs [Close] statement by statement ends where
    [Close] ends: six statements are enough. *)
Lemma Close_steps_agree w :
  match Close w with
  | Returns w' => Close_steps 6 C_Lock w = (C_Returned, w')
  | Panics msg w' => Close_steps 6 C_Lock w = (C_Panicked msg, w')
  | Blocks w' => Close_step C_Lock w = None ∧ w' = w
  end.
Proof.
  destruct w as [[cfg reg lk st dbh] tr].
  destruct lk, st, dbh; cbn; auto.
Qed.

Lemma count_CloseStop_app tr1 tr2 :
  count_CloseStop (tr1 ++ tr2) = (count_CloseStop tr1 + count_CloseStop tr2)%nat.
Proof. unfold count_CloseStop. by rewrite filter_app, length_app. Qed.

Lemma count_CloseStop_StopAll r : count_CloseStop (Registry_StopAll r) = 0%nat.
Proof.
  unfold Registry_StopAll. induction (rev (ordered r)) as [|svc l IH]; [done|].
  cbn [flat_map]. rewrite count_CloseStop_app, IH.
  by destruct (Service_Stop svc).
Qed.

Lemma count_CloseStop_closeCalls w d : count_CloseStop (closeCalls w d) = 1%nat.
Proof.
  unfold closeCalls. rewrite !count_CloseStop_app, count_CloseStop_StopAll.
  reflexivity.
Qed.

(** C2, as the code has it.  [Close] does not look at the stop signal
    before closing it.  A run that finds the signal open closes it and
    returns; a run that finds it already closed executes [close] on it
    once more and panics with the runtime's message.  Either way the run
    executes [close(s.stop)] exactly once. *)
Theorem Close_closes_stop_unguarded w d :
  lock (node w) = Unlocked →
  db (node w) = Some d →
  (stop (node w) = ChanOpen →
     ∃ w', Close w = Returns w' ∧ stop (node w') = ChanClosed)
  ∧ (stop (node w) = ChanClosed →
     ∃ w', Close w = Panics "close of closed channel" w'
           ∧ stop (node w') = ChanClosed)
  ∧ count_CloseStop (trace (outcome_world (Close w))) =
      S (count_CloseStop (trace w)).
Proof.
  intros Hlock Hdb. rewrite (Close_run w d Hlock Hdb).
  split; [|split].
  - intros ->. by eexists.
  - intros Hst. rewrite Hst. by eexists.
  - destruct (stop (node w)); cbn [outcome_world trace];
      rewrite count_CloseStop_app, count_CloseStop_closeCalls; lia.
Qed.

(** *** The interrupt handler *)

Lemma handler_loop_nil i : handler_loop i [] = loop_head i.
Proof. reflexivity. Qed.

(** One more notification: the direct reading of the loop and the
    receive-by-receive reading agree. *)
Lemma handler_loop_snoc sigc sig : ∀ i,
  handler_loop i (sigc ++ [sig]) =
    let '(es, st) := handler_loop i sigc in
    match st with
    | ShuttingDown j =>
        let '(es', st') := loop_head (j - 1) in (es ++ warning j ++ es', st')
    | _ => (es, st)
    end.
Proof.
  induction sigc as [|s0 sigc IH]; intros i; cbn [app handler_loop].
  - unfold loop_head.
    repeat case_bool_decide; cbn; rewrite ?app_nil_r; done.
  - case_bool_decide; [|done].
    rewrite IH. destruct (handler_loop (i - 1) sigc) as [es st].
    destruct st as [|j|]; [done| |done].
    destruct (loop_head (j - 1)) as [es' st']. by rewrite app_assoc.
Qed.

Lemma handler_loop_state sigc : ∀ i,
  snd (handler_loop i sigc) =
    if bool_decide (Z.of_nat (length sigc) < i)
    then ShuttingDown (i - Z.of_nat (length sigc))
    else ForcedTermination.
Proof.
  induction sigc as [|s0 sigc IH]; intros i; cbn [handler_loop length].
  - repeat case_bool_decide; cbn; try lia; try done. f_equal. lia.
  - case_bool_decide as Hi.
    + specialize (IH (i - 1)).
      destruct (handler_loop (i - 1) sigc) as [es st]. cbn in *. rewrite IH.
      repeat case_bool_decide; try lia; try done. f_equal. lia.
    + rewrite bool_decide_eq_false_2 by lia. done.
Qed.

Lemma signalHandler_snoc sigc sig :
  signalHandler (sigc ++ [sig]) =
    let '(es, st) := signalHandler sigc in
    let '(es', st') := handler_recv st in
    (es ++ es', st').
Proof.
  destruct sigc as [|s0 sigc]; [reflexivity|].
  cbn [app signalHandler]. rewrite handler_loop_snoc.
  pose proof (handler_loop_state sigc 10) as Hst.
  destruct (handler_loop 10 sigc) as [es st]. cbn [snd] in Hst.
  destruct st as [|j|]; cbn [handler_recv].
  - by case_bool_decide.
  - by destruct (loop_head (j - 1)) as [es' st'].
  - by rewrite app_nil_r.
Qed.

Lemma signalHandler_state sigc :
  snd (signalHandler sigc) =
    if bool_decide (Z.of_nat (length sigc) = 0) then Running
    else if bool_decide (Z.of_nat (length sigc) ≤ 10)
         then ShuttingDown (11 - Z.of_nat (length sigc))
         else ForcedTermination.
Proof.
  destruct sigc as [|s0 sigc]; [done|].
  cbn [signalHandler length].
  pose proof (handler_loop_state sigc 10) as H.
  destruct (handler_loop 10 sigc) as [es st]. cbn in *. rewrite H.
  repeat case_bool_decide; try lia; try done. f_equal. lia.
Qed.

(** C1, as the code has it.  The first notification moves the handler to
    [ShuttingDown] and starts [Close] in a goroutine of its own.  The loop
    then receives ten more: after [n] notifications in all, with
    [1 <= n <= 10], the handler still waits, and it is the eleventh that
    ends the loop and forces termination, never an earlier one. *)
Theorem signalHandler_escalation (sigc : list Signal) :
  snd (signalHandler sigc) =
    (if bool_decide (Z.of_nat (length sigc) = 0) then Running
     else if bool_decide (Z.of_nat (length sigc) ≤ 10)
          then ShuttingDown (11 - Z.of_nat (length sigc))
          else ForcedTermination)
  ∧ (snd (signalHandler sigc) = ForcedTermination ↔ (11 ≤ length sigc)%nat)
  ∧ (∀ sig, signalHandler [sig] =
        ([EvLogInfo [LStr "Got interrupt, shutting down..."]; EvGoClose],
         ShuttingDown 10)).
Proof.
  split; [apply signalHandler_state|]. split; [|done].
  rewrite signalHandler_state.
  repeat case_bool_decide; split; intros; try done; lia.
Qed.

(** C8, as the code has it.  After [n] notifications, [1 <= n <= 9], the
    handler waits with [11 - n] receives to go; the next notification logs
    the warning with the count [10 - n] and leaves [10 - n] receives to
    go, which is exactly the number of further notifications after which
    termination is forced.  The notification received with one receive to
    go (the eleventh) logs no warning: it ends the loop. *)
Theorem signalHandler_warning (sigc : list Signal) (sig : Signal) :
  (1 ≤ length sigc ≤ 9)%nat →
  snd (signalHandler sigc) = ShuttingDown (11 - Z.of_nat (length sigc))
  ∧ signalHandler (sigc ++ [sig]) =
      (fst (signalHandler sigc) ++
       [EvLogInfo [LStr "Already shutting down, interrupt more to panic.";
                   LStr "times"; LInt (10 - Z.of_nat (length sigc))]],
       ShuttingDown (10 - Z.of_nat (length sigc)))
  ∧ (∀ more, snd (signalHandler (sigc ++ [sig] ++ more)) = ForcedTermination
             ↔ 10 - Z.of_nat (length sigc) ≤ Z.of_nat (length more)).
Proof.
  intros Hn.
  assert (Hst : snd (signalHandler sigc) = ShuttingDown (11 - Z.of_nat (length sigc))).
  { rewrite signalHandler_state. repeat case_bool_decide; try lia; done. }
  split; [done|]. split.
  - rewrite signalHandler_snoc.
    destruct (signalHandler sigc) as [es st]. cbn in Hst. subst st.
    cbn [handler_recv fst]. unfold loop_head, warning.
    rewrite !bool_decide_eq_true_2 by lia. cbn.
    by replace (11 - Z.of_nat (length sigc) - 1) with (10 - Z.of_nat (length sigc)) by lia.
  - intros more. rewrite signalHandler_state, !length_app. cbn [length].
    repeat case_bool_decide; split; intros; try done; lia.
Qed.

(** The last receive of the loop: no warning, the forced exit. *)
Lemma signalHandler_last (sigc : list Signal) (sig : Signal) :
  length sigc = 10%nat →
  signalHandler (sigc ++ [sig]) =
    (fst (signalHandler sigc) ++ forced_exit, ForcedTermination).
Proof.
  intros Hn. rewrite signalHandler_snoc.
  pose proof (signalHandler_state sigc) as Hst. rewrite Hn in Hst.
  destruct (signalHandler sigc) as [es st]. cbn in Hst. subst st. done.
Qed.


(** *** Further properties of the lifecycle *)

(** X10.  [Close] on a supervisor that [NewShardInstance] has just
    returned runs to its end without a panic: it closes the storage that
    construction opened, stops the services in the reverse of their
    registration order, and fires the stop signal. *)
Theorem Close_after_construction ctx n w :
  NewShardInstance ctx = ((Some n, None), w) →
  ∃ d shardp2p pool w',
    database_NewDB (dbConfigOf ctx) = inl d
    ∧ ordered (services n) = spec_registered ctx shardp2p pool
    ∧ Close w = Returns w'
    ∧ stop (node w') = ChanClosed
    ∧ lock (node w') = Unlocked
    ∧ trace w' =
        trace w ++
        [EvLock; EvDBClose d] ++
        flat_map
          (λ service,
             EvServiceStop service ::
             match Service_Stop service with
             | Some err => [EvLogError err]
             | None => []
             end)
          (rev (spec_registered ctx shardp2p pool)) ++
        [EvLogInfo [LStr "Stopping sharding node"]; EvCloseStop; EvUnlock].
Proof.
  intros H. apply NewShardInstance_success in H.
  destruct H as (d & shardp2p & pool & Hdb & _ & _ & -> & _ & Hord & _
                 & Hdbn & Hstop & Hlock).
  eexists d, shardp2p, pool, _. split; [done|]. split; [done|].
  rewrite (Close_run w d Hlock Hdbn), Hstop.
  split; [reflexivity|]. cbn. split; [done|]. split; [done|].
  unfold closeCalls, Registry_StopAll. by rewrite Hord.
Qed.

(** What [Start] does up to its wait, and where it ends. *)
Lemma Start_run w :
  lock (node w) = Unlocked →
  Start w =
    match stop (node w) with
    | ChanOpen => Blocks {| node := node w; trace := trace w ++ startCalls w |}
    | ChanClosed => Returns {| node := node w; trace := trace w ++ startCalls w |}
    end.
Proof.
  destruct w as [[cfg reg lk st dbh] tr]. cbn. intros ->.
  unfold Start, mutex_Lock, StartAll, log_Info, mutex_Unlock, startCalls,
    emits, emit, set_node, set_lock.
  destruct st; cbn; rewrite <- ?app_assoc; cbn; rewrite <- ?app_assoc;
    reflexivity.
Qed.

(** X11.  A run of [Start] that acquires the lock logs, starts every
    registered service once in registration order, releases the lock and
    starts the handler goroutine, in this order, and leaves the
    supervisor as it found it.  It then waits: it returns only if the
    stop signal is closed already, and blocks otherwise.  Run statement
    by statement it ends in the same way. *)
Theorem Start_sequence w :
  lock (node w) = Unlocked →
  trace (outcome_world (Start w)) =
    trace w ++
    [EvLock; EvLogInfo [LStr "Starting sharding node"]] ++
    flat_map
      (λ service,
         EvServiceStart service ::
         match Service_Start service with
         | Some err => [EvLogError err]
         | None => []
         end)
      (ordered (services (node w))) ++
    [EvUnlock; EvGoHandler]
  ∧ node (outcome_world (Start w)) = node w
  ∧ (stop (node w) = ChanOpen → Start w = Blocks (outcome_world (Start w)))
  ∧ (stop (node w) = ChanClosed → Start w = Returns (outcome_world (Start w)))
  ∧ Start_steps 7 S_Lock w =
      (match stop (node w) with
       | ChanOpen => S_WaitStop
       | ChanClosed => S_Returned
       end, outcome_world (Start w)).
Proof.
  intros Hlock. rewrite (Start_run w Hlock).
  split; [by destruct (stop (node w))|].
  split; [by destruct (stop (node w))|].
  split; [by intros ->|]. split; [by intros ->|].
  destruct w as [[cfg reg lk st dbh] tr]. cbn in Hlock. subst lk.
  unfold startCalls. destruct st; cbn;
    unfold StartAll, log_Info, emits, emit, set_node, set_lock; cbn;
    rewrite <- ?app_assoc; cbn; rewrite <- ?app_assoc; reflexivity.
Qed.

(** [Start] with the lock taken and nobody to release it waits at its
    first statement. *)
Lemma Start_blocks w :
  lock (node w) = Locked → Start w = Blocks w.
Proof. intros H. unfold Start, mutex_Lock. by rewrite H. Qed.

(** *** Further properties of the interrupt handler *)

Lemma countdown_length i m : length (countdown i m) = m.
Proof. revert i. induction m as [|m IH]; intros i; cbn; [done|]. by rewrite IH. Qed.

(** The log of the loop in closed form. *)
Lemma handler_loop_events sigc : ∀ i,
  0 ≤ i →
  fst (handler_loop i sigc) =
    flat_map warning (countdown i (Nat.min (length sigc) (Z.to_nat i))) ++
    (if bool_decide (i ≤ Z.of_nat (length sigc)) then forced_exit else []).
Proof.
  induction sigc as [|s0 sigc IH]; intros i Hi; cbn [handler_loop length].
  - cbn. repeat case_bool_decide; try lia; done.
  - case_bool_decide as Hpos.
    + specialize (IH (i - 1) ltac:(lia)).
      destruct (handler_loop (i - 1) sigc) as [es st]. cbn [fst] in *.
      rewrite IH.
      replace (Z.to_nat i) with (S (Z.to_nat (i - 1))) by lia.
      cbn [Nat.min countdown flat_map]. rewrite <- app_assoc.
      do 2 f_equal. repeat case_bool_decide; try lia; done.
    + replace i with 0 by lia. cbn. by rewrite bool_decide_eq_true_2 by lia.
Qed.

Lemma count_GoClose_app tr1 tr2 :
  count_GoClose (tr1 ++ tr2) = (count_GoClose tr1 + count_GoClose tr2)%nat.
Proof. unfold count_GoClose. by rewrite filter_app, length_app. Qed.

Lemma count_GoClose_warnings l : count_GoClose (flat_map warning l) = 0%nat.
Proof.
  induction l as [|i l IH]; [done|]. cbn [flat_map].
  rewrite count_GoClose_app, IH. unfold warning. by case_bool_decide.
Qed.

(** X12.  The complete log of the handler as a function of the number of
    notifications it has received: the shutdown line and the start of
    [Close] on the first; a warning with the counts 9, 8, ..., 1 on the
    second to the tenth; [debug.Exit], the panic and the deferred
    [signal.Stop] on the eleventh; nothing after.  The handler does not
    tell SIGINT from SIGTERM: two sequences of the same length give the
    same behaviour. *)
Theorem signalHandler_log (sigc : list Signal) :
  fst (signalHandler sigc) =
    match sigc with
    | [] => []
    | _ :: rest =>
        [EvLogInfo [LStr "Got interrupt, shutting down..."]; EvGoClose] ++
        flat_map warning (countdown 10 (Nat.min (length rest) 10)) ++
        (if bool_decide (10 ≤ length rest)%nat then forced_exit else [])
    end
  ∧ (∀ sigc', length sigc' = length sigc →
       signalHandler sigc' = signalHandler sigc).
Proof.
  assert (Hlog : ∀ l : list Signal,
    fst (signalHandler l) =
      match l with
      | [] => []
      | _ :: rest =>
          [EvLogInfo [LStr "Got interrupt, shutting down..."]; EvGoClose] ++
          flat_map warning (countdown 10 (Nat.min (length rest) 10)) ++
          (if bool_decide (10 ≤ length rest)%nat then forced_exit else [])
      end).
  { intros [|s0 rest]; [done|]. cbn [signalHandler].
    pose proof (handler_loop_events rest 10 ltac:(lia)) as H.
    destruct (handler_loop 10 rest) as [es st]. cbn [fst] in *. rewrite H.
    cbn [app]. do 3 f_equal.
    repeat case_bool_decide; try lia; done. }
  split; [apply Hlog|].
  intros sigc' Hlen.
  rewrite (surjective_pairing (signalHandler sigc')),
    (surjective_pairing (signalHandler sigc)).
  f_equal.
  - rewrite !Hlog. destruct sigc' as [|? rest'], sigc as [|? rest];
      cbn in Hlen; try done.
    by replace (length rest') with (length rest) by lia.
  - by rewrite !signalHandler_state, Hlen.
Qed.

(** X13.  However many notifications arrive, the handler starts [Close]
    once at most: on the first notification, and never again. *)
Theorem signalHandler_starts_Close_once (sigc : list Signal) :
  count_GoClose (fst (signalHandler sigc)) = Nat.min 1 (length sigc).
Proof.
  destruct sigc as [|s0 rest]; [done|]. cbn [signalHandler length].
  pose proof (handler_loop_events rest 10 ltac:(lia)) as H.
  destruct (handler_loop 10 rest) as [es st]. cbn [fst] in *. rewrite H.
  change (EvLogInfo ?a :: EvGoClose :: ?l) with ([EvLogInfo a; EvGoClose] ++ l).
  rewrite !count_GoClose_app, count_GoClose_warnings.
  by case_bool_decide.
Qed.


End Lifecycle.

Section Goroutines.

Context `{Pkg : Packages} `{Methods : !ServiceMethods}.

Ltac unfold_prims :=
  unfold mutex_Lock, mutex_Unlock, db_Close, close_stop, StartAll, StopAll,
    log_Info, emits, emit, set_node, set_lock, set_stop in *.

(** Only [close(s.stop)] in [Close] touches the stop signal. *)
Lemma Start_step_stop pc w pc' w' :
  Start_step pc w = Some (pc', w') → stop (node w') = stop (node w).
Proof.
  destruct pc; cbn; unfold_prims; intros H;
    repeat case_match; simplify_eq; done.
Qed.

Lemma Close_step_stop pc w pc' w' :
  Close_step pc w = Some (pc', w') →
  stop (node w') = stop (node w)
  ∨ (pc = C_CloseStop ∧ stop (node w) = ChanOpen ∧ stop (node w') = ChanClosed).
Proof.
  destruct pc; cbn; unfold_prims; intros H;
    repeat case_match; simplify_eq; cbn; auto.
Qed.

(** A move that finds the stop signal open and leaves it closed is the
    [close(s.stop)] statement of some invocation of [Close]. *)
Lemma step_fires_stop l s s' :
  step l s = Some s' →
  stop_of s = ChanOpen →
  stop_of s' = ChanClosed →
  ∃ i, l = RunClose i ∧ closers s !! i = Some C_CloseStop.
Proof.
  unfold step, stop_of. intros Hstep Hopen Hclosed.
  destruct (crashed s); [done|].
  destruct l as [| |i|sig|].
  - destruct (Start_step _ _) as [[pc w]|] eqn:Hs; [|done].
    apply Start_step_stop in Hs. simplify_eq. cbn in *. congruence.
  - repeat case_match; simplify_eq; cbn in *; congruence.
  - destruct (closers s !! i) as [pc|] eqn:Hpc; [|done].
    destruct (Close_step _ _) as [[pc' w]|] eqn:Hs; [|done].
    apply Close_step_stop in Hs. simplify_eq. cbn in *.
    destruct Hs as [Hs|(-> & _)]; [congruence|eauto].
  - repeat case_match; simplify_eq; cbn in *; congruence.
  - simplify_eq. cbn in *. congruence.
Qed.

(** A closed stop signal stays closed. *)
Lemma step_stop_closed l s s' :
  step l s = Some s' → stop_of s = ChanClosed → stop_of s' = ChanClosed.
Proof.
  unfold step, stop_of. intros Hstep Hclosed.
  destruct (crashed s); [done|].
  destruct l as [| |i|sig|].
  - destruct (Start_step _ _) as [[pc w]|] eqn:Hs; [|done].
    apply Start_step_stop in Hs. simplify_eq. cbn in *. congruence.
  - repeat case_match; simplify_eq; cbn in *; congruence.
  - destruct (closers s !! i) as [pc|] eqn:Hpc; [|done].
    destruct (Close_step _ _) as [[pc' w]|] eqn:Hs; [|done].
    apply Close_step_stop in Hs. simplify_eq. cbn in *.
    destruct Hs as [Hs|(_ & ? & _)]; congruence.
  - repeat case_match; simplify_eq; cbn in *; congruence.
  - simplify_eq. cbn in *. congruence.
Qed.

Lemma step_returned_after_stop l s s' :
  step l s = Some s' → returned_after_stop s → returned_after_stop s'.
Proof.
  intros Hstep Hinv Hret.
  assert (start_pc s = S_Returned ∨ start_pc s ≠ S_Returned) as [Hs|Hs]
    by (destruct (start_pc s); (by left) || (by right)).
  { eapply step_stop_closed; eauto. }
  revert Hstep. unfold step, stop_of.
  destruct (crashed s); [done|].
  destruct l as [| |i|sig|]; intros Hstep.
  - destruct (start_pc s) eqn:Hpc; cbn in Hstep; unfold_prims;
      repeat case_match; simplify_eq; cbn in *; try done.
  - repeat case_match; simplify_eq; cbn in *; congruence.
  - repeat case_match; simplify_eq; cbn in *; congruence.
  - repeat case_match; simplify_eq; cbn in *; congruence.
  - simplify_eq; cbn in *; congruence.
Qed.

Lemma exec_returned_after_stop ls : ∀ s s',
  exec ls s = Some s' → returned_after_stop s → returned_after_stop s'.
Proof.
  induction ls as [|l ls IH]; intros s s' Hexec Hinv; cbn in Hexec.
  - by simplify_eq.
  - destruct (step l s) as [s1|] eqn:Hstep; [|done].
    eapply IH; [done|]. by eapply step_returned_after_stop.
Qed.

Lemma exec_app ls1 ls2 s :
  exec (ls1 ++ ls2) s =
  match exec ls1 s with Some s1 => exec ls2 s1 | None => None end.
Proof.
  revert s. induction ls1 as [|l ls1 IH]; intros s; cbn; [done|].
  destruct (step l s); [apply IH|done].
Qed.

(** In a schedule that starts with the stop signal open and ends with it
    closed, some invocation of [Close] executed [close(s.stop)] on the
    open signal. *)
Lemma exec_fires_stop ls : ∀ s s',
  exec ls s = Some s' →
  stop_of s = ChanOpen →
  stop_of s' = ChanClosed →
  ∃ ls1 i ls2 s1,
    ls = ls1 ++ RunClose i :: ls2
    ∧ exec ls1 s = Some s1
    ∧ stop_of s1 = ChanOpen
    ∧ closers s1 !! i = Some C_CloseStop.
Proof.
  induction ls as [|l ls IH]; intros s s' Hexec Hopen Hclosed; cbn in Hexec.
  - simplify_eq. congruence.
  - destruct (step l s) as [s1|] eqn:Hstep; [|done].
    destruct (stop_of s1) eqn:Hs1.
    + destruct (IH _ _ Hexec Hs1 Hclosed) as (ls1 & i & ls2 & s2 & -> & He & Ho & Hpc).
      exists (l :: ls1), i, ls2, s2. cbn. rewrite Hstep. done.
    + destruct (step_fires_stop _ _ _ Hstep Hopen Hs1) as (i & -> & Hpc).
      exists [], i, ls, s. done.
Qed.

(** C7.  Take any supervisor whose stop signal is open, let the embedding
    program call [Start], and let the goroutines, the signals and further
    calls of [Close] interleave in any way.  If [Start] has returned, the
    stop signal is closed, and earlier in the schedule an invocation of
    [Close] stood at its [close(s.stop)] statement with the signal still
    open and executed it.  No other move closes the signal. *)
Theorem Start_returns_after_Close w ls s :
  stop (node w) = ChanOpen →
  exec ls (boot w) = Some s →
  start_pc s = S_Returned →
  stop_of s = ChanClosed
  ∧ (∃ ls1 i ls2 s1,
       ls = ls1 ++ RunClose i :: ls2
       ∧ exec ls1 (boot w) = Some s1
       ∧ stop_of s1 = ChanOpen
       ∧ closers s1 !! i = Some C_CloseStop)
  ∧ (∀ l s1 s2,
       step l s1 = Some s2 → stop_of s1 = ChanOpen → stop_of s2 = ChanClosed →
       ∃ i, l = RunClose i ∧ closers s1 !! i = Some C_CloseStop).
Proof.
  intros Hopen Hexec Hret.
  assert (Hclosed : stop_of s = ChanClosed).
  { eapply exec_returned_after_stop; [done| |done]. by intros ?. }
  split; [done|]. split.
  - eapply exec_fires_stop; done.
  - apply step_fires_stop.
Qed.

(** *** The lock *)

Lemma filter_insert_length {A} (P : A → Prop) `{∀ x, Decision (P x)}
    (l : list A) : ∀ i x y,
  l !! i = Some x →
  (length (filter P (<[i:=y]> l)) + (if decide (P x) then 1 else 0) =
   length (filter P l) + (if decide (P y) then 1 else 0))%nat.
Proof.
  induction l as [|a l IH]; intros i x y Hi; [done|].
  destruct i as [|i]; cbn in Hi.
  - simplify_eq. change (<[0%nat:=y]> (x :: l)) with (y :: l).
    rewrite !filter_cons.
    destruct (decide (P x)), (decide (P y)); cbn; lia.
  - change (<[S i:=y]> (a :: l)) with (a :: <[i:=y]> l).
    rewrite !filter_cons. specialize (IH i x y Hi).
    destruct (decide (P a)), (decide (P x)), (decide (P y)); cbn in *; lia.
Qed.

Lemma Start_step_lock pc w pc' w' :
  Start_step pc w = Some (pc', w') →
  (Start_holds pc' = Start_holds pc ∧ lock (node w') = lock (node w))
  ∨ (Start_holds pc = false ∧ Start_holds pc' = true
     ∧ lock (node w) = Unlocked ∧ lock (node w') = Locked)
  ∨ (Start_holds pc = true ∧ Start_holds pc' = false
     ∧ lock (node w) = Locked ∧ lock (node w') = Unlocked)
  ∨ (Start_holds pc = true ∧ lock (node w) = Unlocked).
Proof.
  destruct pc; cbn; unfold_prims; intros Hs;
    repeat case_match; simplify_eq; cbn; auto 10.
Qed.

Lemma Close_step_lock pc w pc' w' :
  Close_step pc w = Some (pc', w') →
  (Close_holds pc' = Close_holds pc ∧ lock (node w') = lock (node w))
  ∨ (Close_holds pc = false ∧ Close_holds pc' = true
     ∧ lock (node w) = Unlocked ∧ lock (node w') = Locked)
  ∨ (Close_holds pc = true ∧ Close_holds pc' = false
     ∧ lock (node w) = Locked ∧ lock (node w') = Unlocked)
  ∨ (Close_holds pc = true ∧ lock (node w) = Unlocked).
Proof.
  destruct pc; cbn; unfold_prims; intros Hs;
    repeat case_match; simplify_eq; cbn; auto 10.
Qed.

Lemma holders_closer s i pc :
  closers s !! i = Some pc → Close_holds pc = true → (1 ≤ holders s)%nat.
Proof.
  intros Hi Hpc. unfold holders.
  assert (pc ∈ filter (λ pc, Close_holds pc = true) (closers s)) as Hin.
  { apply list_elem_of_filter. split; [done|]. by eapply list_elem_of_lookup_2. }
  destruct (filter _ (closers s)); [by apply elem_of_nil in Hin|]. cbn. lia.
Qed.

Lemma step_lock_accounted l s s' :
  step l s = Some s' → lock_accounted s → lock_accounted s'.
Proof.
  unfold step, lock_accounted. intros Hstep Hinv.
  destruct (crashed s); [done|].
  destruct l as [| |i|sig|].
  - destruct (Start_step _ _) as [[pc w]|] eqn:Hs; [|done].
    apply Start_step_lock in Hs. simplify_eq. unfold holders in *. cbn.
    destruct Hs as [(-> & ->)|[(Hb & -> & Hl & ->)|[(Hb & -> & Hl & ->)|(Hb & Hl)]]];
      rewrite ?Hb, ?Hl in Hinv; try done; lia.
  - destruct (handler s) as [st|]; [|done].
    assert (length (filter (λ pc, Close_holds pc = true)
                      (closers s ++ handler_spawns st)) =
            length (filter (λ pc, Close_holds pc = true) (closers s))) as Hsp.
    { rewrite filter_app, length_app.
      destruct st; cbn [handler_spawns]; rewrite ?filter_cons, ?filter_nil;
        cbn; try case_decide; try done; cbn; lia. }
    destruct (notified s).
    + destruct (sigc_buf s); [done|].
      destruct (handler_recv st) as [es st']. simplify_eq.
      unfold holders in *. cbn. by rewrite Hsp.
    + by simplify_eq.
  - destruct (closers s !! i) as [pc|] eqn:Hpc; [|done].
    destruct (Close_step _ _) as [[pc' w]|] eqn:Hs; [|done].
    apply Close_step_lock in Hs. simplify_eq.
    pose proof (filter_insert_length (λ pc, Close_holds pc = true)
                  (closers s) i pc pc' Hpc) as Hlen.
    pose proof (holders_closer s i pc Hpc) as Hge.
    unfold holders in *. cbn.
    destruct Hs as [(Hb & ->)|[(Hb & Hb' & Hl & ->)|[(Hb & Hb' & Hl & ->)|(Hb & Hl)]]];
      rewrite ?Hl in Hinv; repeat case_decide; try congruence; try lia.
    specialize (Hge Hb). lia.
  - destruct (notified s); by simplify_eq.
  - simplify_eq. unfold holders in *. cbn.
    rewrite filter_app, length_app. cbn. case_decide; [done|]. cbn. lia.
Qed.

Lemma exec_lock_accounted ls : ∀ s s',
  exec ls s = Some s' → lock_accounted s → lock_accounted s'.
Proof.
  induction ls as [|l ls IH]; intros s s' Hexec Hinv; cbn in Hexec.
  - by simplify_eq.
  - destruct (step l s) as [s1|] eqn:Hstep; [|done].
    eapply IH; [done|]. by eapply step_lock_accounted.
Qed.

(** Mutual exclusion: in every schedule from a supervisor whose lock is
    free, at most one goroutine stands between a [Lock] and its [Unlock],
    and an invocation of [Close] that stands there finds the lock taken
    and [Start] outside its own locked region. *)
Lemma Close_holds_lock w ls s i pc :
  lock (node w) = Unlocked →
  exec ls (boot w) = Some s →
  closers s !! i = Some pc →
  Close_holds pc = true →
  lock (node (world s)) = Locked
  ∧ holders s = 1%nat
  ∧ Start_holds (start_pc s) = false.
Proof.
  intros Hfree Hexec Hi Hpc.
  assert (lock_accounted s) as Hacc.
  { eapply exec_lock_accounted; [done|].
    unfold lock_accounted, holders. cbn. by rewrite Hfree. }
  pose proof (holders_closer s i pc Hi Hpc) as Hge.
  unfold lock_accounted in Hacc.
  destruct (lock (node (world s))); [lia|].
  split; [done|]. split; [done|].
  unfold holders in Hacc, Hge.
  assert (pc ∈ filter (λ pc, Close_holds pc = true) (closers s)) as Hin.
  { apply list_elem_of_filter. split; [done|]. by eapply list_elem_of_lookup_2. }
  destruct (filter _ (closers s)); [by apply elem_of_nil in Hin|].
  destruct (Start_holds (start_pc s)); [cbn in Hacc; lia|done].
Qed.

(** C6.  A run of [Close] that acquires the lock makes exactly these
    calls, in this order: lock, close of the storage handle, the [Stop]
    calls of [StopAll] (with the logging of their failures), the shutdown
    log line, [close] on the stop signal, and the deferred unlock; it
    never blocks after the lock, and it leaves the lock free.  The run
    fires the stop signal: it leaves the signal closed and the rest of
    the supervisor as it found it, and on a signal that was still open it
    returns (on one already closed, [close] panics after the same calls).
    Run as a goroutine, statement by statement, it ends in the same way.
    And however the goroutines of the process interleave, an invocation
    of [Close] that stands between its lock and its unlock finds the lock
    taken and is the only goroutine to hold it. *)
Theorem Close_sequence w d :
  lock (node w) = Unlocked →
  db (node w) = Some d →
  trace (outcome_world (Close w)) =
    trace w ++
    [EvLock; EvDBClose d] ++
    Registry_StopAll (services (node w)) ++
    [EvLogInfo [LStr "Stopping sharding node"]; EvCloseStop; EvUnlock]
  ∧ (∀ w', Close w ≠ Blocks w')
  ∧ lock (node (outcome_world (Close w))) = Unlocked
  ∧ snd (Close_steps 6 C_Lock w) = outcome_world (Close w)
  ∧ (∀ ls s i pc,
       exec ls (boot w) = Some s →
       closers s !! i = Some pc →
       Close_holds pc = true →
       lock (node (world s)) = Locked ∧ holders s = 1%nat)
  ∧ stop (node (outcome_world (Close w))) = ChanClosed
  ∧ node (outcome_world (Close w)) = set_stop ChanClosed (node w)
  ∧ (stop (node w) = ChanOpen →
       Close w = Returns (outcome_world (Close w)))
  ∧ (stop (node w) = ChanClosed →
       Close w = Panics "close of closed channel" (outcome_world (Close w))).
Proof.
  intros Hlock Hdb.
  pose proof (Close_steps_agree w) as Hsteps.
  rewrite (Close_run w d Hlock Hdb) in *.
  split; [|split; [|split; [|split; [|split; [|split; [|split; [|split]]]]]]].
  - by destruct (stop (node w)).
  - by destruct (stop (node w)).
  - by destruct (stop (node w)); cbn.
  - destruct (stop (node w)); by rewrite Hsteps.
  - intros ls s i pc Hexec Hi Hpc.
    destruct (Close_holds_lock w ls s i pc Hlock Hexec Hi Hpc) as (? & ? & _).
    done.
  - by destruct (stop (node w)) eqn:Hstop; cbn.
  - destruct w as [[cfg reg lk st dbh] tr]. by destruct st.
  - by intros ->.
  - by intros ->.
Qed.


(** *** Further properties of the process *)

Ltac reassoc :=
  unfold startCalls, closeCalls;
  repeat first [rewrite <- app_assoc | progress cbn [app]]; try reflexivity.

(** The process when [Start] stands at its wait and nothing else has
    moved. *)
Lemma exec_startSchedule w :
  lock (node w) = Unlocked →
  exec startSchedule (boot w) =
    Some {| world := outcome_world (Start w); start_pc := S_WaitStop;
            handler := Some Running; notified := false; sigc_buf := [];
            closers := []; crashed := None |}.
Proof.
  destruct w as [[cfg reg lk st dbh] tr]. cbn [node lock]. intros ->.
  destruct st; vm_compute; reflexivity.
Qed.

(** An invocation of [Close] that is alone to move runs as [Close]
    does. *)
Lemma exec_closeSchedule w d pc h b buf :
  lock (node w) = Unlocked →
  db (node w) = Some d →
  stop (node w) = ChanOpen →
  exec (closeSchedule 0)
    {| world := w; start_pc := pc; handler := h; notified := b;
       sigc_buf := buf; closers := [C_Lock]; crashed := None |} =
    Some {| world := outcome_world (Close w); start_pc := pc; handler := h;
            notified := b; sigc_buf := buf; closers := [C_Returned];
            crashed := None |}.
Proof.
  destruct w as [[cfg reg lk st dbh] tr]. cbn [node lock db stop].
  intros -> -> ->. vm_compute. reflexivity.
Qed.

Lemma Start_world w :
  lock (node w) = Unlocked →
  outcome_world (Start w) =
    {| node := node w; trace := trace w ++ startCalls w |}.
Proof. intros H. rewrite (Start_run w H). by destruct (stop (node w)). Qed.

Lemma Close_world w d :
  lock (node w) = Unlocked →
  db (node w) = Some d →
  stop (node w) = ChanOpen →
  outcome_world (Close w) =
    {| node := set_stop ChanClosed (node w);
       trace := trace w ++ closeCalls w d |}.
Proof. intros Hl Hd Hs. by rewrite (Close_run w d Hl Hd), Hs. Qed.

(** X14.  [Close] called by the embedding program releases [Start].  On
    any supervisor with a free lock, an attached storage handle and an
    open stop signal: once [Start] waits and a [Close] call has run to
    its end, [Start] returns; nothing has panicked, the lock is free, and
    the history is the calls of [Start] followed by those of [Close]. *)
Theorem called_Close_releases_Start w d :
  lock (node w) = Unlocked →
  db (node w) = Some d →
  stop (node w) = ChanOpen →
  ∃ s,
    exec calledCloseSchedule (boot w) = Some s
    ∧ start_pc s = S_Returned
    ∧ closers s = [C_Returned]
    ∧ crashed s = None
    ∧ lock (node (world s)) = Unlocked
    ∧ stop_of s = ChanClosed
    ∧ trace (world s) = trace w ++ startCalls w ++ closeCalls w d.
Proof.
  intros Hlock Hdb Hstop.
  unfold calledCloseSchedule.
  rewrite exec_app, (exec_startSchedule w Hlock), (Start_world w Hlock).
  change (exec ([CallClose] ++ ?ls) ?s) with
    (match step CallClose s with Some s' => exec ls s' | None => None end).
  unfold step at 1. cbn [crashed world start_pc handler notified sigc_buf closers app].
  rewrite exec_app, (exec_closeSchedule _ d) by done.
  rewrite (Close_world _ d) by done.
  eexists. split; [reflexivity|]. cbn.
  repeat split; try done. reassoc.
Qed.

(** The handler subscribes, one signal is raised, and the handler
    receives it. *)
Lemma exec_first_signal w sig pc :
  exec [RunHandler; Deliver sig; RunHandler]
    {| world := w; start_pc := pc; handler := Some Running;
       notified := false; sigc_buf := []; closers := []; crashed := None |} =
    Some {| world :=
              emits [EvLogInfo [LStr "Got interrupt, shutting down..."];
                     EvGoClose] (emit EvNotify w);
            start_pc := pc; handler := Some (ShuttingDown 10);
            notified := true; sigc_buf := []; closers := [C_Lock];
            crashed := None |}.
Proof. destruct w as [n tr]. vm_compute. reflexivity. Qed.

(** X15.  One interrupt shuts the node down in good order.  On any
    supervisor with a free lock, an attached storage handle and an open
    stop signal: once [Start] waits and the handler has subscribed, a
    single SIGINT or SIGTERM makes the handler start [Close]; when that
    [Close] has run to its end [Start] returns, nothing has panicked, and
    the handler is left waiting with ten receives to go. *)
Theorem one_signal_shuts_down w d sig :
  lock (node w) = Unlocked →
  db (node w) = Some d →
  stop (node w) = ChanOpen →
  ∃ s,
    exec (oneSignalSchedule sig) (boot w) = Some s
    ∧ start_pc s = S_Returned
    ∧ handler s = Some (ShuttingDown 10)
    ∧ closers s = [C_Returned]
    ∧ crashed s = None
    ∧ stop_of s = ChanClosed
    ∧ trace (world s) =
        trace w ++ startCalls w ++
        [EvNotify; EvLogInfo [LStr "Got interrupt, shutting down..."];
         EvGoClose] ++
        closeCalls w d.
Proof.
  intros Hlock Hdb Hstop.
  unfold oneSignalSchedule.
  rewrite exec_app, (exec_startSchedule w Hlock), (Start_world w Hlock).
  rewrite exec_app, exec_first_signal.
  rewrite exec_app, (exec_closeSchedule _ d) by done.
  rewrite (Close_world _ d) by done.
  eexists. split; [reflexivity|]. cbn.
  repeat split; try done. reassoc.
Qed.

(** One more signal, raised and received while the handler waits. *)
Lemma exec_next_signal s sig st :
  crashed s = None →
  notified s = true →
  sigc_buf s = [] →
  handler s = Some st →
  exec [Deliver sig; RunHandler] s =
    Some {| world := emits (fst (handler_recv st)) (world s);
            start_pc := start_pc s;
            handler := Some (snd (handler_recv st));
            notified := true; sigc_buf := [];
            closers := closers s ++ handler_spawns st;
            crashed := HandlerState_panic (snd (handler_recv st)) |}.
Proof.
  intros Hc Hn Hb Hh. cbn [exec]. unfold step at 1. rewrite Hc, Hn, Hb.
  unfold step. cbn [crashed handler notified sigc_buf world start_pc closers].
  rewrite Hh. by destruct (handler_recv st) as [es st'].
Qed.

Lemma signalsSchedule_snoc sigs sig :
  signalsSchedule (sigs ++ [sig]) =
  signalsSchedule sigs ++ [Deliver sig; RunHandler].
Proof.
  unfold signalsSchedule. rewrite flat_map_app. cbn [flat_map].
  by rewrite app_nil_r, <- !app_assoc.
Qed.

(** X16.  The handler goroutine of the process behaves as
    [signalHandler] says.  When up to eleven signals are raised and
    received one after the other while no [Close] gets to move (a
    shutdown that hangs), the handler stands where [signalHandler] puts
    it and has logged what [signalHandler] logs; [Close] was started on
    the first signal only; [Start] has not returned; and the process is
    ended by the handler's panic exactly when [signalHandler] reaches
    [ForcedTermination], that is on the eleventh signal. *)
Theorem signals_drive_handler w sigs :
  lock (node w) = Unlocked →
  (length sigs ≤ 11)%nat →
  ∃ s,
    exec (signalsSchedule sigs) (boot w) = Some s
    ∧ handler s = Some (snd (signalHandler sigs))
    ∧ trace (world s) =
        trace w ++ startCalls w ++ [EvNotify] ++ fst (signalHandler sigs)
    ∧ node (world s) = node w
    ∧ crashed s = HandlerState_panic (snd (signalHandler sigs))
    ∧ start_pc s = S_WaitStop
    ∧ closers s = match sigs with [] => [] | _ => [C_Lock] end
    ∧ notified s = true
    ∧ sigc_buf s = [].
Proof.
  intros Hlock. induction sigs as [|sig sigs IH] using rev_ind; intros Hlen.
  - unfold signalsSchedule. cbn [flat_map]. rewrite app_nil_r.
    rewrite exec_app, (exec_startSchedule w Hlock), (Start_world w Hlock).
    eexists. split; [reflexivity|]. cbn.
    repeat split; try done. reassoc.
  - rewrite length_app in Hlen. cbn in Hlen.
    destruct IH as (s & Hexec & Hh & Htr & Hnode & Hcr & Hpc & Hcl & Hn & Hb);
      [lia|].
    pose proof (signalHandler_state sigs) as Hst.
    assert (HandlerState_panic (snd (signalHandler sigs)) = None) as Hnone.
    { rewrite Hst. repeat case_bool_decide; try done; lia. }
    rewrite Hnone in Hcr.
    rewrite signalsSchedule_snoc, exec_app, Hexec.
    rewrite (exec_next_signal s sig _ Hcr Hn Hb Hh).
    rewrite signalHandler_snoc.
    destruct (signalHandler sigs) as [es st]. cbn [fst snd] in *.
    destruct (handler_recv st) as [es' st'] eqn:Hrecv. cbn [fst snd].
    eexists. split; [reflexivity|]. cbn.
    repeat split; try done.
    + rewrite Htr. reassoc.
    + rewrite Hcl. destruct sigs as [|s0 sigs]; cbn.
      * cbn in Hst. by subst st.
      * destruct st; cbn; try done.
        revert Hst. cbn [length]. repeat case_bool_decide; try done; lia.
Qed.

(** *** What no schedule can do *)

Lemma Start_step_go pc w pc' w' :
  Start_step pc w = Some (pc', w') →
  (pc = S_Go ∧ pc' = S_WaitStop)
  ∨ (pc ≠ S_Go ∧ (Start_before_go pc' = true → Start_before_go pc = true)).
Proof.
  destruct pc; cbn; unfold_prims; intros Hs;
    repeat case_match; simplify_eq; cbn; auto.
Qed.

Lemma handler_recv_received st :
  HandlerState_ok st →
  HandlerState_ok (snd (handler_recv st))
  ∧ received (snd (handler_recv st)) ≤ received st + 1.
Proof.
  destruct st as [|i|]; cbn; unfold loop_head;
    repeat case_bool_decide; cbn; lia.
Qed.

Lemma step_signals_accounted l s s' raised :
  step l s = Some s' →
  signals_accounted s raised →
  signals_accounted s'
    (if is_Deliver l then S raised else raised).
Proof.
  unfold step, signals_accounted.
  intros Hstep (Hgo & Hnone & Hbuf & Hsub & Hrecv).
  destruct (crashed s); [done|].
  destruct l as [| |i|sig|]; cbn [is_Deliver].
  - destruct (Start_step _ _) as [[pc w]|] eqn:Hs; [|done].
    apply Start_step_go in Hs. simplify_eq. cbn.
    destruct Hs as [(Hpc & ->)|(Hpc & Hbefore)].
    + rewrite Hpc in *. specialize (Hgo eq_refl).
      rewrite (Hsub (Hnone Hgo)). cbn.
      repeat split; try done; try lia.
    + replace (match start_pc s with S_Go => Some Running | _ => handler s end)
        with (handler s) by (by destruct (start_pc s)).
      repeat split; auto.
  - destruct (handler s) as [st|] eqn:Hh; [|done].
    destruct (notified s) eqn:Hn.
    + destruct (sigc_buf s) as [|s0 buf] eqn:Hb; [done|].
      pose proof (handler_recv_received st (proj1 Hrecv)) as [Hok Hle].
      destruct (handler_recv st) as [es st']. simplify_eq. cbn in *.
      repeat split; try done; try lia.
      intros Hpc. by specialize (Hgo Hpc).
    + simplify_eq. cbn. rewrite (Hsub eq_refl) in *. cbn in *.
      repeat split; try done; try lia; tauto.
  - destruct (closers s !! i) as [pc|]; [|done].
    destruct (Close_step pc (world s)) as [[pc' w']|]; [|done].
    simplify_eq. cbn. repeat split; auto.
  - destruct (notified s) eqn:Hn; simplify_eq; cbn.
    + repeat split; try done.
      * destruct (sigc_buf s) as [|? [|? ?]]; cbn in *; lia.
      * destruct (handler s); [|done]. destruct Hrecv as [Hok Hle].
        split; [done|].
        destruct (sigc_buf s) as [|? [|? ?]]; cbn in *; lia.
    + repeat split; try done.
      destruct (handler s); [|done]. destruct Hrecv as [Hok Hle].
      split; [done|]. lia.
  - simplify_eq. cbn. done.
Qed.

Lemma deliveries_cons l ls :
  deliveries (l :: ls) =
  if is_Deliver l then S (deliveries ls) else deliveries ls.
Proof.
  unfold deliveries. rewrite filter_cons.
  destruct (is_Deliver l); by case_decide.
Qed.

Lemma exec_signals_accounted ls : ∀ s s' raised,
  exec ls s = Some s' →
  signals_accounted s raised →
  signals_accounted s' (raised + deliveries ls).
Proof.
  induction ls as [|l ls IH]; intros s s' raised Hexec Hinv; cbn in Hexec.
  - simplify_eq. by rewrite Nat.add_0_r.
  - destruct (step l s) as [s1|] eqn:Hstep; [|done].
    pose proof (step_signals_accounted _ _ _ _ Hstep Hinv) as H1.
    specialize (IH _ _ _ Hexec H1). rewrite deliveries_cons.
    destruct (is_Deliver l); [|done].
    by replace (raised + S (deliveries ls))%nat
      with (S raised + deliveries ls)%nat by lia.
Qed.

(** X17.  Forced termination takes eleven signals at least.  In every
    schedule, the notifications the handler has received do not exceed
    the signals raised, [sigc] never holds more than one pending
    notification, and if the handler has reached [ForcedTermination] then
    eleven signals or more were raised. *)
Theorem forced_termination_needs_eleven w ls s :
  exec ls (boot w) = Some s →
  (length (sigc_buf s) ≤ 1)%nat
  ∧ (∀ st, handler s = Some st →
       received st + Z.of_nat (length (sigc_buf s)) ≤ Z.of_nat (deliveries ls))
  ∧ (handler s = Some ForcedTermination → (11 ≤ deliveries ls)%nat).
Proof.
  intros Hexec.
  assert (signals_accounted s (0 + deliveries ls)) as (_ & _ & Hbuf & _ & Hrecv).
  { eapply exec_signals_accounted; [done|].
    unfold signals_accounted. cbn. repeat split; auto. }
  cbn in Hrecv. split; [done|]. split.
  - intros st Hst. rewrite Hst in Hrecv. by destruct Hrecv.
  - intros Hst. rewrite Hst in Hrecv. destruct Hrecv as [_ Hle].
    cbn in Hle. lia.
Qed.

(** *** Two invocations of [Close] *)

Lemma Close_step_fired pc w pc' w' :
  Close_step pc w = Some (pc', w') →
  (Close_fired pc' = Close_fired pc ∧ stop (node w') = stop (node w))
  ∨ (Close_fired pc = true ∧ Close_fired pc' = false
     ∧ stop (node w') = stop (node w))
  ∨ (Close_fired pc = false ∧ Close_fired pc' = true
     ∧ stop (node w) = ChanOpen ∧ stop (node w') = ChanClosed).
Proof.
  destruct pc as [| | | | |[msg|]| |]; cbn; unfold_prims; intros Hs;
    repeat case_match; simplify_eq; cbn; auto 10.
Qed.

Lemma step_fired_accounted l s s' :
  step l s = Some s' → fired_accounted s → fired_accounted s'.
Proof.
  unfold step, fired_accounted, stop_of. intros Hstep Hinv.
  destruct (crashed s); [done|].
  destruct l as [| |i|sig|].
  - destruct (Start_step _ _) as [[pc w]|] eqn:Hs; [|done].
    apply Start_step_stop in Hs. simplify_eq. cbn. by rewrite Hs.
  - destruct (handler s) as [st|]; [|done].
    assert (length (filter (λ pc, Close_fired pc = true)
                      (closers s ++ handler_spawns st)) =
            length (filter (λ pc, Close_fired pc = true) (closers s))) as Hsp.
    { rewrite filter_app, length_app.
      destruct st; cbn [handler_spawns]; rewrite ?filter_cons, ?filter_nil;
        cbn; try case_decide; try done; cbn; lia. }
    destruct (notified s).
    + destruct (sigc_buf s); [done|].
      destruct (handler_recv st) as [es st']. simplify_eq.
      cbn. by rewrite Hsp.
    + by simplify_eq.
  - destruct (closers s !! i) as [pc|] eqn:Hpc; [|done].
    destruct (Close_step _ _) as [[pc' w]|] eqn:Hs; [|done].
    apply Close_step_fired in Hs. simplify_eq.
    pose proof (filter_insert_length (λ pc, Close_fired pc = true)
                  (closers s) i pc pc' Hpc) as Hlen.
    cbn.
    destruct Hs as [(Hb & ->)|[(Hb & Hb' & ->)|(Hb & Hb' & Hl & ->)]];
      rewrite ?Hl in Hinv; repeat case_decide; try congruence;
      try destruct (stop (node (world s))); lia.
  - destruct (notified s); by simplify_eq.
  - simplify_eq. cbn.
    rewrite filter_app, length_app. cbn. case_decide; [done|]. cbn. lia.
Qed.

Lemma exec_fired_accounted ls : ∀ s s',
  exec ls s = Some s' → fired_accounted s → fired_accounted s'.
Proof.
  induction ls as [|l ls IH]; intros s s' Hexec Hinv; cbn in Hexec.
  - by simplify_eq.
  - destruct (step l s) as [s1|] eqn:Hstep; [|done].
    eapply IH; [done|]. by eapply step_fired_accounted.
Qed.

Lemma filter_one {A} (P : A → Prop) `{∀ x, Decision (P x)} (l : list A) i x :
  l !! i = Some x → P x → (1 ≤ length (filter P l))%nat.
Proof.
  intros Hi Hx.
  assert (x ∈ filter P l) as Hin.
  { apply list_elem_of_filter. split; [done|].
    by eapply list_elem_of_lookup_2. }
  destruct (filter P l); [by apply elem_of_nil in Hin|]. cbn. lia.
Qed.

Lemma filter_two {A} (P : A → Prop) `{∀ x, Decision (P x)} (l : list A) :
  ∀ i j x y,
  l !! i = Some x → l !! j = Some y → i ≠ j → P x → P y →
  (2 ≤ length (filter P l))%nat.
Proof.
  induction l as [|a l IH]; intros i j x y Hi Hj Hne Hx Hy; [done|].
  rewrite filter_cons.
  destruct i as [|i], j as [|j]; cbn in Hi, Hj; simplify_eq.
  - rewrite decide_True by done. cbn.
    pose proof (filter_one P l j y Hj Hy). lia.
  - rewrite decide_True by done. cbn.
    pose proof (filter_one P l i x Hi Hx). lia.
  - assert (i ≠ j) by congruence.
    specialize (IH i j x y Hi Hj ltac:(done) Hx Hy).
    case_decide; cbn; lia.
Qed.

(** X18.  In every schedule, one invocation of [Close] at most returns:
    two invocations that have both returned are the same invocation, and
    as long as the stop signal is open none has returned.  (Every other
    invocation that gets to [close(s.stop)] finds the signal closed.) *)
Theorem one_Close_returns w ls s i j :
  exec ls (boot w) = Some s →
  closers s !! i = Some C_Returned →
  closers s !! j = Some C_Returned →
  i = j ∧ stop_of s = ChanClosed.
Proof.
  intros Hexec Hi Hj.
  assert (fired_accounted s) as Hacc.
  { eapply exec_fired_accounted; [done|].
    unfold fired_accounted. cbn. lia. }
  unfold fired_accounted in Hacc.
  pose proof (filter_one (λ pc, Close_fired pc = true) (closers s)
                i C_Returned Hi eq_refl) as Hone.
  destruct (stop_of s); [lia|]. split; [|done].
  destruct (decide (i = j)) as [|Hne]; [done|].
  pose proof (filter_two (λ pc, Close_fired pc = true) (closers s)
                i j C_Returned C_Returned Hi Hj Hne eq_refl eq_refl).
  lia.
Qed.

(** X19.  [Start] and [Close] exclude each other.  In every schedule
    from a supervisor whose lock is free, while [Start] stands between
    its lock and its unlock (logging, starting the services, reading
    [s.stop]) the lock is taken and no invocation of [Close] stands
    between its own lock and unlock: [StartAll] never runs while storage
    is being closed or the services stopped. *)
Theorem Start_excludes_Close w ls s :
  lock (node w) = Unlocked →
  exec ls (boot w) = Some s →
  Start_holds (start_pc s) = true →
  lock (node (world s)) = Locked
  ∧ ∀ i pc, closers s !! i = Some pc → Close_holds pc = false.
Proof.
  intros Hfree Hexec Hst.
  assert (lock_accounted s) as Hacc.
  { eapply exec_lock_accounted; [done|].
    unfold lock_accounted, holders. cbn. by rewrite Hfree. }
  unfold lock_accounted, holders in Hacc. rewrite Hst in Hacc.
  destruct (lock (node (world s))); [lia|]. split; [done|].
  intros i pc Hi. destruct (Close_holds pc) eqn:Hpc; [|done].
  pose proof (filter_one (λ pc, Close_holds pc = true) (closers s)
                i pc Hi Hpc) as Hge.
  lia.
Qed.

(** *** Without a signal and without a call of [Close] *)

Lemma step_idle l s s' :
  step l s = Some s' → is_internal l = true → idle s → idle s'.
Proof.
  unfold step, idle, stop_of. intros Hstep Hint (Hcl & Hbuf & Hopen & Hret).
  destruct (crashed s); [done|].
  destruct l as [| |i|sig|]; try done.
  - destruct (Start_step _ _) as [[pc w]|] eqn:Hs; [|done].
    pose proof (Start_step_stop _ _ _ _ Hs) as Hstop. simplify_eq. cbn.
    rewrite Hstop. repeat split; try done.
    destruct (start_pc s); cbn in Hs; unfold_prims;
      repeat case_match; simplify_eq; done.
  - destruct (handler s) as [st|]; [|done].
    destruct (notified s).
    + by rewrite Hbuf in Hstep.
    + by simplify_eq.
  - by rewrite Hcl in Hstep.
Qed.

(** X20.  [Start] does not return by itself.  From any supervisor whose
    stop signal is open, as long as no signal is raised and the embedding
    program does not call [Close], no schedule makes [Start] return: no
    invocation of [Close] exists and the stop signal stays open. *)
Theorem Start_waits_undisturbed w ls s :
  stop (node w) = ChanOpen →
  undisturbed ls →
  exec ls (boot w) = Some s →
  start_pc s ≠ S_Returned ∧ closers s = [] ∧ stop_of s = ChanOpen.
Proof.
  intros Hopen Hls Hexec.
  assert (idle (boot w)) as Hidle by (by repeat split).
  revert Hexec Hidle. generalize (boot w). clear Hopen.
  induction Hls as [|l ls Hl Hls IH]; intros s0 Hexec Hidle; cbn in Hexec.
  - simplify_eq. destruct Hidle as (? & ? & ? & ?). done.
  - destruct (step l s0) as [s1|] eqn:Hstep; [|done].
    eapply IH; [done|]. by eapply step_idle.
Qed.


End Goroutines.

(** * The properties on the sample deployment *)


Lemma NewShardInstance_storage_failure_witness :
  fst (NewShardInstance (Pkg := Sample.packages) Sample.noDirCtx) =
    (None, Some (ErrOpaque "cannot open storage"))
  ∧ ordered (services (node (snd (NewShardInstance (Pkg := Sample.packages)
                                    Sample.noDirCtx)))) = [].
Proof.
  destruct (NewShardInstance_storage_failure (Pkg := Sample.packages)
              Sample.noDirCtx (ErrOpaque "cannot open storage"))
    as (Hres & _ & _ & Hord).
  - reflexivity.
  - split; [exact Hres | exact Hord].
Defined.

Lemma NewShardInstance_build_order_witness :
  ∃ d shardp2p pool,
    trace (snd (NewShardInstance (Pkg := Sample.packages) Sample.proposerCtx)) =
      spec_buildCalls (Pkg := Sample.packages) Sample.proposerCtx shardp2p pool
    ∧ db (node (snd (NewShardInstance (Pkg := Sample.packages)
                       Sample.proposerCtx))) = Some d.
Proof.
  destruct (NewShardInstance_build_order (Pkg := Sample.packages)
              Sample.proposerCtx
              (node (snd (NewShardInstance (Pkg := Sample.packages)
                            Sample.proposerCtx)))
              (snd (NewShardInstance (Pkg := Sample.packages)
                      Sample.proposerCtx)))
    as (d & shardp2p & pool & _ & _ & _ & Htrace & _ & Hdb).
  - vm_compute. reflexivity.
  - exists d, shardp2p, pool. split; [exact Htrace | exact Hdb].
Defined.


Lemma registerActorService_fetches_first_witness :
  registerActorService (Pkg := Sample.packages) "none"
    (allocShardEthereum (Pkg := Sample.packages)) =
    (Some (UnregisteredService T_beacon_Service),
     emit (EvFetchService T_beacon_Service None)
       (allocShardEthereum (Pkg := Sample.packages))).
Proof.
  apply (registerActorService_fetches_first (Pkg := Sample.packages) "none"
           (allocShardEthereum (Pkg := Sample.packages))).
  reflexivity.
Defined.

Lemma Close_sequence_witness :
  trace (outcome_world (Close (Methods := Sample.methods) Sample.attesterNode)) =
    [EvLock; EvDBClose (Pkg := Sample.packages) "/var/shard";
     EvServiceStop (Svc_attester (Pkg := Sample.packages) "localhost:4000");
     EvServiceStop (Svc_beacon (Pkg := Sample.packages) "localhost:4000");
     EvServiceStop (Svc_rpcclient (Pkg := Sample.packages) "localhost:4000");
     EvServiceStop (Svc_p2p (Pkg := Sample.packages) 1%nat);
     EvLogInfo [LStr "Stopping sharding node"]; EvCloseStop; EvUnlock]
  ∧ stop (node (outcome_world (Close (Methods := Sample.methods)
                                 Sample.attesterNode))) = ChanClosed
  ∧ Close (Methods := Sample.methods) Sample.attesterNode =
      Returns (outcome_world (Close (Methods := Sample.methods)
                                Sample.attesterNode)).
Proof.
  destruct (Close_sequence (Methods := Sample.methods) Sample.attesterNode
              "/var/shard")
    as (Htrace & _ & _ & _ & _ & Hstop & _ & Hreturns & _).
  - reflexivity.
  - reflexivity.
  - split; [rewrite Htrace; reflexivity|].
    split; [exact Hstop|]. apply Hreturns. reflexivity.
Defined.

Lemma Close_closes_stop_unguarded_witness :
  (∃ w', Close (Methods := Sample.methods) Sample.attesterNode = Returns w'
         ∧ stop (node w') = ChanClosed)
  ∧ (∃ w', Close (Methods := Sample.methods) Sample.closedNode =
             Panics "close of closed channel" w'
           ∧ stop (node w') = ChanClosed).
Proof.
  split.
  - destruct (Close_closes_stop_unguarded (Methods := Sample.methods)
                Sample.attesterNode "/var/shard") as (Hopen & _ & _).
    + reflexivity.
    + reflexivity.
    + apply Hopen. reflexivity.
  - destruct (Close_closes_stop_unguarded (Methods := Sample.methods)
                Sample.closedNode "/var/shard") as (_ & Hclosed & _).
    + reflexivity.
    + reflexivity.
    + apply Hclosed. reflexivity.
Defined.

(** C2 fails as stated: the second of two runs of [Close] finds the stop
    signal closed and executes [close] on it again. *)
Lemma Close_twice_closes_stop_twice :
  ∃ w1 w2,
    Close (Methods := Sample.methods) Sample.attesterNode = Returns w1
    ∧ stop (node w1) = ChanClosed
    ∧ Close (Methods := Sample.methods) w1 = Panics "close of closed channel" w2
    ∧ count_CloseStop (trace w2) = 2%nat.
Proof.
  eexists _, _. split; [vm_compute; reflexivity|].
  split; [reflexivity|].
  split; [vm_compute; reflexivity|].
  reflexivity.
Qed.

Lemma signalHandler_escalation_witness :
  snd (signalHandler (Pkg := Sample.packages) (replicate 11 SIGINT)) =
    ForcedTermination.
Proof.
  destruct (signalHandler_escalation (Pkg := Sample.packages)
              (replicate 11 SIGINT)) as (_ & Hforced & _).
  apply Hforced. vm_compute. lia.
Defined.

(** C1 fails as stated: after the tenth notification the handler still
    waits in its loop. *)
Lemma tenth_notification_does_not_force :
  snd (signalHandler (Pkg := Sample.packages) (replicate 10 SIGINT)) =
    ShuttingDown 1
  ∧ snd (signalHandler (Pkg := Sample.packages) (replicate 10 SIGINT)) ≠
      ForcedTermination.
Proof. split; [reflexivity | discriminate]. Qed.

Lemma signalHandler_warning_witness :
  signalHandler (Pkg := Sample.packages) ([SIGINT; SIGTERM] ++ [SIGINT]) =
    ([EvLogInfo [LStr "Got interrupt, shutting down..."]; EvGoClose;
      EvLogInfo [LStr "Already shutting down, interrupt more to panic.";
                 LStr "times"; LInt 9];
      EvLogInfo [LStr "Already shutting down, interrupt more to panic.";
                 LStr "times"; LInt 8]],
     ShuttingDown 8).
Proof.
  destruct (signalHandler_warning (Pkg := Sample.packages)
              [SIGINT; SIGTERM] SIGINT) as (_ & Hnext & _).
  - cbn. lia.
  - rewrite Hnext. reflexivity.
Defined.

(** C8 fails as stated: the notification received with one receive to go
    logs no warning. *)
Lemma eleventh_notification_logs_nothing :
  snd (signalHandler (Pkg := Sample.packages) (replicate 10 SIGINT)) =
    ShuttingDown 1
  ∧ signalHandler (Pkg := Sample.packages) (replicate 10 SIGINT ++ [SIGINT]) =
      (fst (signalHandler (Pkg := Sample.packages) (replicate 10 SIGINT)) ++
       [EvDebugExit; EvPanic "Panic closing the sharding node"; EvSignalStop],
       ForcedTermination).
Proof. split; reflexivity. Qed.

Lemma Start_returns_after_Close_witness :
  ∃ s,
    exec (Methods := Sample.methods) Sample.interruptSchedule
      (boot Sample.attesterNode) = Some s
    ∧ start_pc s = S_Returned
    ∧ stop_of s = ChanClosed.
Proof.
  destruct (exec (Methods := Sample.methods) Sample.interruptSchedule
              (boot Sample.attesterNode)) as [s|] eqn:Hexec.
  - exists s.
    assert (Hret : start_pc s = S_Returned).
    { vm_compute in Hexec. injection Hexec as <-. reflexivity. }
    destruct (Start_returns_after_Close (Methods := Sample.methods)
                Sample.attesterNode Sample.interruptSchedule s) as (Hclosed & _).
    + reflexivity.
    + exact Hexec.
    + exact Hret.
    + repeat split; [exact Hret | exact Hclosed].
  - vm_compute in Hexec. discriminate.
Defined.

(** * The further properties on the sample deployment *)

Lemma empty_registry_consistent :
  registry_consistent (Pkg := Sample.packages)
    (services (node (allocShardEthereum (Pkg := Sample.packages)))).
Proof.
  split; [constructor|]. intros k s. cbn. rewrite lookup_empty.
  split; [discriminate|]. intros [Hin _]. by apply elem_of_nil in Hin.
Defined.

Lemma NewShardInstance_succeeds_iff_witness :
  ∃ d shardp2p,
    database_NewDB (Packages := Sample.packages)
      (dbConfigOf (Pkg := Sample.packages) Sample.proposerCtx) = inl d
    ∧ p2p_NewServer (Packages := Sample.packages) = inl shardp2p.
Proof.
  destruct (NewShardInstance_succeeds_iff (Pkg := Sample.packages)
              Sample.proposerCtx) as [Hsucc _].
  destruct Hsucc as (d & shardp2p & Hdb & Hsrv & _).
  - eexists _, _. vm_compute. reflexivity.
  - exists d, shardp2p. split; [exact Hdb | exact Hsrv].
Defined.

Lemma NewShardInstance_failure_cases_witness :
  ∃ d e,
    database_NewDB (Packages := Sample.offline)
      (dbConfigOf (Pkg := Sample.offline) Sample.attesterCtx) = inl d
    ∧ p2p_NewServer (Packages := Sample.offline) = inr e.
Proof.
  destruct (NewShardInstance_failure_cases (Pkg := Sample.offline)
              Sample.attesterCtx
              (Errorf "could not register shardp2p service: %v"
                 (ErrOpaque "no usable address"))
              (NewShardInstance (Pkg := Sample.offline) Sample.attesterCtx).2)
    as [(Hdb & _)|[(d & e & Hdb & Hsrv & _)|(d & p & e & _ & Hsrv & _)]].
  - reflexivity.
  - discriminate Hdb.
  - exists d, e. split; [exact Hdb | exact Hsrv].
  - discriminate Hsrv.
Defined.

Lemma NewShardInstance_leaves_storage_open_witness :
  db (node (NewShardInstance (Pkg := Sample.offline) Sample.attesterCtx).2) =
    Some "/var/shard"
  ∧ (NewShardInstance (Pkg := Sample.offline) Sample.attesterCtx).1.1 = None.
Proof.
  destruct (NewShardInstance_leaves_storage_open (Pkg := Sample.offline)
              Sample.attesterCtx "/var/shard") as [Hdb _].
  - reflexivity.
  - split; [exact Hdb | reflexivity].
Defined.

Lemma runStep_frame_witness :
  node (runStep (Pkg := Sample.packages) Sample.attesterCtx StepP2P
          Sample.attesterWorld).2 = node Sample.attesterWorld.
Proof.
  destruct (runStep_frame (Pkg := Sample.packages) Sample.attesterCtx StepP2P
              Sample.attesterWorld) as (_ & _ & _ & _ & _ & Herr & _).
  apply Herr. vm_compute. eexists. reflexivity.
Defined.

Lemma runSteps_registry_consistent_witness :
  registry_consistent (Pkg := Sample.packages)
    (services (node (runSteps (Pkg := Sample.packages) Sample.proposerCtx
                       buildSteps
                       (allocShardEthereum (Pkg := Sample.packages))).2)).
Proof.
  apply (runSteps_registry_consistent (Pkg := Sample.packages)).
  exact empty_registry_consistent.
Defined.

Lemma registerTXPool_proposer_cases_witness :
  registerTXPool (Pkg := Sample.packages) "proposer"
    (allocShardEthereum (Pkg := Sample.packages)) =
    (Some (UnregisteredService T_p2p_Server),
     emit (EvFetchService T_p2p_Server None)
       (allocShardEthereum (Pkg := Sample.packages))).
Proof.
  destruct (registerTXPool_proposer_cases (Pkg := Sample.packages)
              (allocShardEthereum (Pkg := Sample.packages)))
    as (Hmissing & _ & _).
  apply Hmissing. reflexivity.
Defined.

Lemma registerBeaconService_cases_witness :
  registerBeaconService (Pkg := Sample.packages)
    (allocShardEthereum (Pkg := Sample.packages)) =
    (Some (UnregisteredService T_rpcclient_Service),
     emit (EvFetchService T_rpcclient_Service None)
       (allocShardEthereum (Pkg := Sample.packages))).
Proof.
  destruct (registerBeaconService_cases (Pkg := Sample.packages)
              (allocShardEthereum (Pkg := Sample.packages)))
    as (Hmissing & _).
  apply Hmissing. reflexivity.
Defined.

Lemma registerRPCClientService_twice_witness :
  (registerRPCClientService (Pkg := Sample.packages) Sample.proposerCtx
     (registerRPCClientService (Pkg := Sample.packages) Sample.attesterCtx
        (allocShardEthereum (Pkg := Sample.packages))).2).1 =
    Some (DuplicateService T_rpcclient_Service).
Proof.
  destruct (registerRPCClientService_twice (Pkg := Sample.packages)
              Sample.attesterCtx Sample.proposerCtx
              (allocShardEthereum (Pkg := Sample.packages))
              (registerRPCClientService (Pkg := Sample.packages)
                 Sample.attesterCtx
                 (allocShardEthereum (Pkg := Sample.packages))).2)
    as (Hdup & _).
  - vm_compute. reflexivity.
  - exact Hdup.
Defined.

Lemma runStep_keeps_services_witness :
  byType (services (node (runStep (Pkg := Sample.packages) Sample.attesterCtx
                            StepRPCClient Sample.attesterWorld).2))
    !! T_p2p_Server = Some (Svc_p2p (Pkg := Sample.packages) 1%nat).
Proof.
  apply (runStep_keeps_services (Pkg := Sample.packages)).
  reflexivity.
Defined.

Lemma Close_after_construction_witness :
  ∃ w',
    Close (Methods := Sample.methods) Sample.attesterWorld = Returns w'
    ∧ stop (node w') = ChanClosed.
Proof.
  destruct (Close_after_construction (Methods := Sample.methods)
              Sample.attesterCtx (node Sample.attesterWorld)
              Sample.attesterWorld)
    as (d & shardp2p & pool & w' & _ & _ & Hclose & Hstop & _).
  - vm_compute. reflexivity.
  - exists w'. split; [exact Hclose | exact Hstop].
Defined.

Lemma Start_sequence_witness :
  Start (Methods := Sample.methods) Sample.attesterNode =
    Blocks (outcome_world (Start (Methods := Sample.methods)
                             Sample.attesterNode))
  ∧ Start (Methods := Sample.methods) Sample.closedNode =
      Returns (outcome_world (Start (Methods := Sample.methods)
                                Sample.closedNode)).
Proof.
  split.
  - destruct (Start_sequence (Methods := Sample.methods) Sample.attesterNode)
      as (_ & _ & Hopen & _).
    + reflexivity.
    + apply Hopen. reflexivity.
  - destruct (Start_sequence (Methods := Sample.methods) Sample.closedNode)
      as (_ & _ & _ & Hclosed & _).
    + reflexivity.
    + apply Hclosed. reflexivity.
Defined.

Lemma signalHandler_log_witness :
  signalHandler (Pkg := Sample.packages) [SIGTERM; SIGINT; SIGTERM] =
  signalHandler (Pkg := Sample.packages) [SIGINT; SIGINT; SIGINT].
Proof.
  destruct (signalHandler_log (Pkg := Sample.packages) [SIGINT; SIGINT; SIGINT])
    as [_ Hsame].
  apply Hsame. reflexivity.
Defined.

Lemma called_Close_releases_Start_witness :
  ∃ s,
    exec (Methods := Sample.methods) calledCloseSchedule
      (boot Sample.attesterNode) = Some s
    ∧ start_pc s = S_Returned
    ∧ crashed s = None.
Proof.
  destruct (called_Close_releases_Start (Methods := Sample.methods)
              Sample.attesterNode "/var/shard")
    as (s & Hexec & Hret & _ & Hcr & _).
  - reflexivity.
  - reflexivity.
  - reflexivity.
  - exists s. split; [exact Hexec|]. split; [exact Hret | exact Hcr].
Defined.

Lemma one_signal_shuts_down_witness :
  ∃ s,
    exec (Methods := Sample.methods) (oneSignalSchedule SIGTERM)
      (boot Sample.attesterNode) = Some s
    ∧ start_pc s = S_Returned
    ∧ crashed s = None.
Proof.
  destruct (one_signal_shuts_down (Methods := Sample.methods)
              Sample.attesterNode "/var/shard" SIGTERM)
    as (s & Hexec & Hret & _ & _ & Hcr & _).
  - reflexivity.
  - reflexivity.
  - reflexivity.
  - exists s. split; [exact Hexec|]. split; [exact Hret | exact Hcr].
Defined.

Lemma signals_drive_handler_witness :
  ∃ s,
    exec (Methods := Sample.methods) (signalsSchedule (replicate 11 SIGINT))
      (boot Sample.attesterNode) = Some s
    ∧ crashed s = Some "Panic closing the sharding node"
    ∧ closers s = [C_Lock].
Proof.
  destruct (signals_drive_handler (Methods := Sample.methods)
              Sample.attesterNode (replicate 11 SIGINT))
    as (s & Hexec & _ & _ & _ & Hcr & _ & Hcl & _).
  - reflexivity.
  - vm_compute. lia.
  - exists s. split; [exact Hexec|]. split; [exact Hcr | exact Hcl].
Defined.

Lemma forced_termination_needs_eleven_witness :
  (11 ≤ deliveries (signalsSchedule (replicate 11 SIGINT)))%nat.
Proof.
  destruct (exec (Methods := Sample.methods)
              (signalsSchedule (replicate 11 SIGINT))
              (boot Sample.attesterNode)) as [s|] eqn:Hexec.
  - destruct (forced_termination_needs_eleven (Methods := Sample.methods)
                Sample.attesterNode (signalsSchedule (replicate 11 SIGINT)) s
                Hexec) as (_ & _ & Hforced).
    apply Hforced.
    vm_compute in Hexec. injection Hexec as <-. reflexivity.
  - vm_compute in Hexec. discriminate.
Defined.

Lemma one_Close_returns_witness :
  ∃ s,
    exec (Methods := Sample.methods) calledCloseSchedule
      (boot Sample.attesterNode) = Some s
    ∧ stop_of s = ChanClosed.
Proof.
  destruct (exec (Methods := Sample.methods) calledCloseSchedule
              (boot Sample.attesterNode)) as [s|] eqn:Hexec.
  - exists s. split; [reflexivity|].
    assert (Hret : closers s !! 0%nat = Some C_Returned).
    { vm_compute in Hexec. injection Hexec as <-. reflexivity. }
    destruct (one_Close_returns (Methods := Sample.methods)
                Sample.attesterNode calledCloseSchedule s 0%nat 0%nat
                Hexec Hret Hret) as [_ Hclosed].
    exact Hclosed.
  - vm_compute in Hexec. discriminate.
Defined.

Lemma Start_excludes_Close_witness :
  ∃ s,
    exec (Methods := Sample.methods) [CallClose; RunStart; RunStart]
      (boot Sample.attesterNode) = Some s
    ∧ lock (node (world s)) = Locked
    ∧ closers s !! 0%nat = Some C_Lock.
Proof.
  destruct (exec (Methods := Sample.methods) [CallClose; RunStart; RunStart]
              (boot Sample.attesterNode)) as [s|] eqn:Hexec.
  - exists s. split; [reflexivity|].
    assert (Hst : Start_holds (start_pc s) = true).
    { vm_compute in Hexec. injection Hexec as <-. reflexivity. }
    destruct (Start_excludes_Close (Methods := Sample.methods)
                Sample.attesterNode [CallClose; RunStart; RunStart] s)
      as [Hlock _].
    + reflexivity.
    + exact Hexec.
    + exact Hst.
    + split; [exact Hlock|].
      vm_compute in Hexec. injection Hexec as <-. reflexivity.
  - vm_compute in Hexec. discriminate.
Defined.

Lemma Start_waits_undisturbed_witness :
  ∃ s,
    exec (Methods := Sample.methods) (startSchedule ++ [RunHandler])
      (boot Sample.attesterNode) = Some s
    ∧ start_pc s ≠ S_Returned.
Proof.
  destruct (exec (Methods := Sample.methods) (startSchedule ++ [RunHandler])
              (boot Sample.attesterNode)) as [s|] eqn:Hexec.
  - exists s. split; [reflexivity|].
    destruct (Start_waits_undisturbed (Methods := Sample.methods)
                Sample.attesterNode (startSchedule ++ [RunHandler]) s)
      as [Hnot _].
    + reflexivity.
    + repeat constructor.
    + exact Hexec.
    + exact Hnot.
  - vm_compute in Hexec. discriminate.
Defined.
